(** * rpcplus server core: registry, validator, executor and dispatcher

    A shallow embedding of the server side of package [rpcplus]
    (method validation, service registration, [sendResponse], the per-call
    executor [service.call] and the serving loop [ServeCodecWithContext]),
    followed by the properties checked against it. *)

From Stdlib Require Import ZArith Lia Ascii String.
From stdpp Require Import base option list gmap strings fin_maps.

Open Scope string_scope.
Open Scope Z_scope.

(** ** Go strings and the two library calls behind [isExported] *)

(** A Go string is a byte string; so is a Rocq [string]. *)
Definition byte_of (a : ascii) : Z := Z.of_nat (nat_of_ascii a).

Definition RuneError : Z := 0xFFFD.

Definition in_range (lo hi x : Z) : bool := (lo <=? x) && (x <=? hi).

(** Continuation byte of a UTF-8 sequence, with its six payload bits. *)
Definition cont (lo hi : Z) (s : string) : option (Z * string) :=
  match s with
  | String a rest =>
      let b := byte_of a in
      if in_range lo hi b then Some (Z.land b 0x3F, rest) else None
  | EmptyString => None
  end.

(** [utf8.DecodeRuneInString], first component: the first rune of [s],
    [RuneError] for the empty string and for an invalid encoding. *)
Definition utf8_DecodeRuneInString (s : string) : Z :=
  match s with
  | EmptyString => RuneError
  | String a rest =>
      let s0 := byte_of a in
      if s0 <? 0x80 then s0
      else if in_range 0xC2 0xDF s0 then
        match cont 0x80 0xBF rest with
        | Some (b1, _) => Z.lor (Z.shiftl (Z.land s0 0x1F) 6) b1
        | None => RuneError
        end
      else if in_range 0xE0 0xEF s0 then
        let lo := if s0 =? 0xE0 then 0xA0 else 0x80 in
        let hi := if s0 =? 0xED then 0x9F else 0xBF in
        match cont lo hi rest with
        | Some (b1, rest1) =>
            match cont 0x80 0xBF rest1 with
            | Some (b2, _) =>
                Z.lor (Z.shiftl (Z.land s0 0x0F) 12) (Z.lor (Z.shiftl b1 6) b2)
            | None => RuneError
            end
        | None => RuneError
        end
      else if in_range 0xF0 0xF4 s0 then
        let lo := if s0 =? 0xF0 then 0x90 else 0x80 in
        let hi := if s0 =? 0xF4 then 0x8F else 0xBF in
        match cont lo hi rest with
        | Some (b1, rest1) =>
            match cont 0x80 0xBF rest1 with
            | Some (b2, rest2) =>
                match cont 0x80 0xBF rest2 with
                | Some (b3, _) =>
                    Z.lor (Z.shiftl (Z.land s0 0x07) 18)
                      (Z.lor (Z.shiftl b1 12) (Z.lor (Z.shiftl b2 6) b3))
                | None => RuneError
                end
            | None => RuneError
            end
        | None => RuneError
        end
      else RuneError
  end.

(** ** Runtime types, as far as the server inspects them *)

Module Reflect.

(** [reflect.Kind] without [Ptr], which is a constructor of its own. *)
Inductive BaseKind :=
| KBool | KInt | KUint64 | KString | KStruct | KInterface
| KChan | KFunc | KMap | KSlice.

Inductive Kind := Ptr | Base (k : BaseKind).

(** A [reflect.Type]: what [Kind], [Name], [PkgPath] and [Elem] answer.
    An unnamed type has the empty name; a predeclared type has the empty
    package path. *)
Inductive type :=
| TBase (k : BaseKind) (name pkgPath : string)
| TPtr (name pkgPath : string) (elem : type).

Definition kind (t : type) : Kind :=
  match t with TBase k _ _ => Base k | TPtr _ _ _ => Ptr end.

Definition Name (t : type) : string :=
  match t with TBase _ n _ => n | TPtr n _ _ => n end.

Definition PkgPath (t : type) : string :=
  match t with TBase _ _ p => p | TPtr _ p _ => p end.

(** [reflect.PtrTo]: the unnamed pointer type to [t]. *)
Definition PtrTo (t : type) : type := TPtr "" "" t.

(** The type behind [reflect.Indirect(v).Type()]: one dereference of a
    pointer, any other type as it is. *)
Definition indirect (t : type) : type :=
  match t with TPtr _ _ e => e | TBase _ _ _ => t end.

End Reflect.

Import Reflect.

#[global] Instance BaseKind_eq_dec : EqDecision BaseKind.
Proof. solve_decision. Defined.

#[global] Instance Kind_eq_dec : EqDecision Kind.
Proof. solve_decision. Defined.

#[global] Instance type_eq_dec : EqDecision type.
Proof. solve_decision. Defined.

(** The precomputed [reflect.Type] of the interface [error]. *)
Definition typeOfError : type := TBase KInterface "error" "".

(** The import path of this package, the [PkgPath] of its own types. *)
Definition rpcplusPath : string := "github.com/flynn/rpcplus".

(** [reflect.TypeOf(Stream{})] *)
Definition typeOfStream : type := TBase KStruct "Stream" rpcplusPath.

(** [reflect.TypeOf("")], the context type of [NewServer]. *)
Definition typeOfString : type := TBase KString "string" "".

(** ** Values, wire bodies and handlers *)

(** User data is opaque to the server. *)
Definition payload := string.

(** A [reflect.Value] as the server builds and passes it. *)
Inductive Value :=
| VNew (t : type) (addr : nat)   (* reflect.New(t): pointer to a fresh zero t *)
| VElem (v : Value)              (* v.Elem() *)
| VOf (t : type) (d : payload)   (* reflect.ValueOf(x) for a non-nil x *)
| VRcvr (t : type)               (* reflect.ValueOf(rcvr), rcvr of type t *)
| VStream                        (* reflect.ValueOf(Stream{sendChan, errChan}) *)
| VInvalid.                      (* the zero Value *)

(** [v.Type()] *)
Fixpoint typeOf (v : Value) : option type :=
  match v with
  | VNew t _ => Some (PtrTo t)
  | VElem v' =>
      match typeOf v' with
      | Some (TPtr _ _ e) => Some e
      | _ => None
      end
  | VOf t _ => Some t
  | VRcvr t => Some t
  | VStream => Some typeOfStream
  | VInvalid => None
  end.

(** The [interface{}] handed to [WriteResponse] as the body. *)
Inductive body :=
| BNil                     (* nil *)
| BInvalidRequest          (* the placeholder struct{}{} *)
| BData (d : payload)      (* a value the handler put on the stream *)
| BValue (v : Value).      (* v.Interface() *)

(** [var invalidRequest = struct{}{}] *)
Definition invalidRequest : body := BInvalidRequest.

(** What a handler does with the stream it was given, up to its return.
    [HSend] is [stream.Send <- v], [HRecv] is [<-stream.Error], [HSelect]
    is a [select] over both; [HReturn None] is [return nil]. *)
Inductive handler :=
| HReturn (e : option string)
| HSend (v : payload) (k : handler)
| HRecv (k : string -> handler)
| HSelect (v : payload) (ksent : handler) (kerr : string -> handler).

(** [reflect.Method]: [Type.In] includes the receiver. *)
Record FuncType := { fn_In : list type; fn_Out : list type }.

Record Method := {
  method_Name : string;
  method_PkgPath : string;
  method_Type : FuncType;
  method_Func : list Value -> handler
}.

Record methodType := {
  method : Method;
  ArgType : type;
  ReplyType : type;
  ContextType : option type;
  stream : bool;
  numCalls : nat
}.

Definition TakesContext (m : methodType) : bool :=
  match ContextType m with Some _ => true | None => false end.

(** What [Register] is given: the receiver's dynamic type and the method
    set [typ.Method(0) .. typ.Method(NumMethod()-1)] of that type. *)
Record Receiver := {
  rcvr_typ : type;
  rcvr_methods : list Method
}.

Record service := {
  name : string;
  rcvr : Value;
  typ : type;
  methods : gmap string methodType
}.

Record Request := { req_ServiceMethod : string; req_Seq : Z }.

Record Response := {
  ServiceMethod : string;
  Seq : Z;
  Error : string
}.

Definition lastStreamResponseError : string := "EOS".

(** The free lists are the intrusive [next] chains, head first. *)
Record Server := {
  serviceMap : gmap string service;
  freeReq : list Request;
  freeResp : list Response;
  contextType : type
}.

Definition NewServer : Server :=
  {| serviceMap := ∅; freeReq := []; freeResp := []; contextType := typeOfString |}.

Definition SetContextType (server : Server) (t : type) : Server :=
  {| serviceMap := serviceMap server; freeReq := freeReq server;
     freeResp := freeResp server; contextType := t |}.

(** ** Validator and registry *)

Section Validator.

(** [unicode.Upper] beyond Latin-1: the range table of the Go library. *)
Variable upperAboveLatin1 : Z -> bool.

(** [unicode.IsUpper]: the Latin-1 property table has [Lu] on A-Z,
    U+00C0-U+00D6 and U+00D8-U+00DE; above it the range table decides. *)
Definition unicode_IsUpper (r : Z) : bool :=
  if in_range 0 0xFF r then
    in_range 0x41 0x5A r || in_range 0xC0 0xD6 r || in_range 0xD8 0xDE r
  else upperAboveLatin1 r.

Definition isExported (name : string) : bool :=
  unicode_IsUpper (utf8_DecodeRuneInString name).

(** The loop [for t.Kind() == reflect.Ptr { t = t.Elem() }]. *)
Fixpoint stripPtr (t : type) : type :=
  match t with
  | TPtr _ _ e => stripPtr e
  | TBase _ _ _ => t
  end.

Definition isExportedOrBuiltinType (t : type) : bool :=
  let t := stripPtr t in
  isExported (Name t) || String.eqb (PkgPath t) "".

Definition prepareMethod (method : Method) : option methodType :=
  let mtype := method_Type method in
  if negb (String.eqb (method_PkgPath method) "") then None
  else
    match
      match fn_In mtype with
      | [_; a; r] => Some (a, r, None)
      | [_; c; a; r] => Some (a, r, Some c)
      | _ => None
      end
    with
    | None => None
    | Some (argType, replyType, contextType) =>
        if negb (isExportedOrBuiltinType argType) then None
        else
          match
            if decide (replyType = typeOfStream) then Some true
            else if decide (kind replyType = Ptr) then Some false
            else None
          with
          | None => None
          | Some stream =>
              if negb (isExportedOrBuiltinType replyType) then None
              else
                match fn_Out mtype with
                | [returnType] =>
                    if decide (returnType = typeOfError) then
                      Some {| method := method; ArgType := argType;
                              ReplyType := replyType;
                              ContextType := contextType;
                              stream := stream; numCalls := 0 |}
                    else None
                | _ => None
                end
          end
    end.

(** How [register] ends: [log.Fatal] leaves the process, the other two
    are the returned error. *)
Inductive regResult :=
| RegOk
| RegErr (msg : string)
| RegFatal (msg : string).

(** The loop that installs the methods into [s.method]. *)
Definition installMethods (ms : list Method) : gmap string methodType :=
  foldl (fun acc m =>
           match prepareMethod m with
           | Some mt => <[method_Name m := mt]> acc
           | None => acc
           end) ∅ ms.

Definition register (server : Server) (rcvr : Receiver) (name : string)
    (useName : bool) : Server * regResult :=
  let typ := rcvr_typ rcvr in
  let sname := if useName then name else Name (indirect typ) in
  if String.eqb sname "" then
    (server, RegFatal "rpc: no service name for type")
  else if negb (isExported sname) && negb useName then
    (server, RegErr ("rpc Register: type " ++ sname ++ " is not exported"))
  else
    match serviceMap server !! sname with
    | Some _ => (server, RegErr ("rpc: service already defined: " ++ sname))
    | None =>
        let ms := installMethods (rcvr_methods rcvr) in
        if decide (size ms = 0%nat) then
          (server,
           RegErr ("rpc Register: type " ++ sname
                   ++ " has no exported methods of suitable type"))
        else
          let s := {| name := sname; rcvr := VRcvr typ; typ := typ; methods := ms |} in
          ({| serviceMap := <[sname := s]> (serviceMap server);
              freeReq := freeReq server; freeResp := freeResp server;
              contextType := contextType server |}, RegOk)
    end.

Definition Register (server : Server) (rcvr : Receiver) :=
  register server rcvr "" false.

Definition RegisterName (server : Server) (name : string) (rcvr : Receiver) :=
  register server rcvr name true.

End Validator.

(** ** Codec, free lists and [sendResponse] *)

Inductive readErr :=
| EOF                       (* io.EOF *)
| ErrUnexpectedEOF          (* io.ErrUnexpectedEOF *)
| OtherErr (msg : string).  (* any other error of the decoder *)

Definition readErrString (e : readErr) : string :=
  match e with
  | EOF => "EOF"
  | ErrUnexpectedEOF => "unexpected EOF"
  | OtherErr msg => msg
  end.

(** One request as the peer sent it: what [ReadRequestHeader] answers, and
    the error of the [ReadRequestBody] that follows, if it fails. *)
Record wireRequest := {
  wr_header : readErr + Request;
  wr_body : option readErr
}.

(** A [ServerCodec] seen from the server: the requests still to be read,
    the results of the coming [WriteResponse] calls (none left: success),
    and whether [Close] was called. *)
Record Codec := {
  input : list wireRequest;
  writeErrs : list (option string);
  codecClosed : bool
}.

(** The arguments of one [codec.WriteResponse(resp, body, last)]. *)
Record frame := {
  f_resp : Response;
  f_body : body;
  f_last : bool
}.

Definition WriteResponse (c : Codec) (f : frame) : Codec * option string :=
  match writeErrs c with
  | [] => (c, None)
  | e :: es =>
      ({| input := input c; writeErrs := es; codecClosed := codecClosed c |}, e)
  end.

(** An exhausted input is a peer that hung up. *)
Definition ReadRequestHeader (c : Codec) : Codec * (readErr + Request) :=
  match input c with
  | [] => (c, inl EOF)
  | w :: rest =>
      match wr_header w with
      | inl e =>
          ({| input := rest; writeErrs := writeErrs c;
              codecClosed := codecClosed c |}, inl e)
      | inr h => (c, inr h)
      end
  end.

Definition ReadRequestBody (c : Codec) : Codec * option readErr :=
  match input c with
  | [] => (c, Some EOF)
  | w :: rest =>
      ({| input := rest; writeErrs := writeErrs c;
          codecClosed := codecClosed c |}, wr_body w)
  end.

Definition CloseCodec (c : Codec) : Codec :=
  {| input := input c; writeErrs := writeErrs c; codecClosed := true |}.

Definition zeroRequest : Request := {| req_ServiceMethod := ""; req_Seq := 0 |}.
Definition zeroResponse : Response := {| ServiceMethod := ""; Seq := 0; Error := "" |}.

Definition withFreeReq (server : Server) (l : list Request) : Server :=
  {| serviceMap := serviceMap server; freeReq := l;
     freeResp := freeResp server; contextType := contextType server |}.

Definition withFreeResp (server : Server) (l : list Response) : Server :=
  {| serviceMap := serviceMap server; freeReq := freeReq server;
     freeResp := l; contextType := contextType server |}.

(** A recycled header is reset to the zero header, a new one is zero. *)
Definition getRequest (server : Server) : Server * Request :=
  match freeReq server with
  | [] => (server, zeroRequest)
  | _ :: next => (withFreeReq server next, zeroRequest)
  end.

Definition freeRequest (server : Server) (req : Request) : Server :=
  withFreeReq server (req :: freeReq server).

Definition getResponse (server : Server) : Server * Response :=
  match freeResp server with
  | [] => (server, zeroResponse)
  | _ :: next => (withFreeResp server next, zeroResponse)
  end.

Definition freeResponse (server : Server) (r : Response) : Server :=
  withFreeResp server (r :: freeResp server).

(** What one [sendResponse] leaves behind: the frame it handed to the codec,
    what the codec answered, and its own result [err]. *)
Record sent := {
  s_server : Server;
  s_codec : Codec;
  s_frame : frame;
  s_werr : option string;
  s_err : option string
}.

(** The result of [codec.WriteResponse] is not assigned to anything: the
    named result [err] is returned as it was declared, nil. *)
Definition sendResponse (server : Server) (req : Request) (reply : body)
    (codec : Codec) (errmsg : string) (last : bool) : sent :=
  let '(server, resp) := getResponse server in
  let resp := {| ServiceMethod := req_ServiceMethod req;
                 Seq := Seq resp; Error := Error resp |} in
  let '(resp, reply) :=
    if negb (String.eqb errmsg "") then
      ({| ServiceMethod := ServiceMethod resp; Seq := Seq resp;
          Error := errmsg |}, invalidRequest)
    else (resp, reply) in
  let resp := {| ServiceMethod := ServiceMethod resp; Seq := req_Seq req;
                 Error := Error resp |} in
  let f := {| f_resp := resp; f_body := reply; f_last := last |} in
  let '(codec, werr) := WriteResponse codec f in
  {| s_server := freeResponse server resp; s_codec := codec;
     s_frame := f; s_werr := werr; s_err := None |}.

(** ** The per-call executor [service.call] *)

(** Channels are named by numbers; a channel of [struct{}] is only ever
    closed, so the set of closed ones is all there is to know. *)
Definition chan := nat.

(** The fields of [call] that are values; [server], [sending] and [codec]
    are shared objects and live in the state below. *)
Record call := {
  mtype : methodType;
  req : Request;
  argv : Value;
  replyv : Value;
  context : Value;
  eof : chan;
  stop : chan;
  done : chan
}.

(** Where the goroutine running [call] stands. *)
Inductive mainSt :=
| MStart                      (* not yet started *)
| MRunning (h : handler)      (* inside [function.Call] *)
| MWait (e : option string)   (* [funcDone] closed, blocked on [<-sendDone] *)
| MDone.                      (* returned *)

(** Where the goroutine pumping the stream stands. *)
Inductive pumpSt :=
| PNone                       (* not spawned *)
| PSelect                     (* at the [select] *)
| PErrSend (e : string)       (* blocked on [errChan <- e] *)
| PExited.                    (* returned; [sendDone] closed *)

(** What the executor does that others can see, oldest first. *)
Inductive event :=
| EvCall (args : list Value)                 (* function.Call(args) *)
| EvReturn (e : option string)               (* the handler's result *)
| EvWrite (f : frame) (werr : option string) (* codec.WriteResponse, its result *)
| EvErrChan (e : string)                     (* a value delivered on errChan *)
| EvClose (c : chan).                        (* close(c) *)

Record cstate := {
  st_server : Server;
  st_codec : Codec;
  st_main : mainSt;
  st_pump : pumpSt;
  st_streamErr : option string;
  st_numCalls : nat;
  st_closed : gset chan;
  st_trace : list event
}.

(** The scheduler's and the environment's choices. The four [CData],
    [CFuncDone], [CEof], [CStop] are the cases of the pumper's [select];
    when several are ready Go takes any of them. *)
Inductive choice :=
| CStart        (* the goroutine starts and invokes the handler *)
| CReturn       (* the handler returns *)
| CFinish       (* [<-sendDone] proceeds, up to [close(c.done)] *)
| CData         (* [data := <-sendChan] meets a send of the handler *)
| CFuncDone     (* [<-funcDone] *)
| CEof          (* [<-c.eof] *)
| CStop         (* [<-c.stop] *)
| CErrRecv      (* the handler receives what the pumper sends on errChan *)
| CCloseEof     (* the reader closes [eof] *)
| CCloseStop.   (* a cancellation closes [stop] *)

Definition io_EOF : string := "EOF".

Definition errString (e : option string) : string :=
  match e with Some m => m | None => "" end.

(** The error of the terminal frame of a stream. *)
Definition streamErrmsg (errInter streamErr : option string) : string :=
  match errInter with
  | Some m => m
  | None =>
      match streamErr with
      | Some m => m
      | None => lastStreamResponseError
      end
  end.

Section Call.

Variable s : service.
Variable c : call.

Definition callArgs (lastArg : Value) : list Value :=
  if TakesContext (mtype c) then [rcvr s; context c; argv c; lastArg]
  else [rcvr s; argv c; lastArg].

(** The tail shared by both paths: the terminal [sendResponse],
    [freeRequest], [close(c.done)]. *)
Definition finish (st : cstate) (reply : body) (errmsg : string) : cstate :=
  let r := sendResponse (st_server st) (req c) reply (st_codec st) errmsg true in
  {| st_server := freeRequest (s_server r) (req c);
     st_codec := s_codec r;
     st_main := MDone;
     st_pump := st_pump st;
     st_streamErr := st_streamErr st;
     st_numCalls := st_numCalls st;
     st_closed := {[ done c ]} ∪ st_closed st;
     st_trace := st_trace st ++ [EvWrite (s_frame r) (s_werr r); EvClose (done c)] |}.

Definition setMain (st : cstate) (m : mainSt) (evs : list event) : cstate :=
  {| st_server := st_server st; st_codec := st_codec st; st_main := m;
     st_pump := st_pump st; st_streamErr := st_streamErr st;
     st_numCalls := st_numCalls st; st_closed := st_closed st;
     st_trace := st_trace st ++ evs |}.

Definition setPump (st : cstate) (p : pumpSt) : cstate :=
  {| st_server := st_server st; st_codec := st_codec st; st_main := st_main st;
     st_pump := p; st_streamErr := st_streamErr st;
     st_numCalls := st_numCalls st; st_closed := st_closed st;
     st_trace := st_trace st |}.

Definition closeChan (st : cstate) (ch : chan) : cstate :=
  {| st_server := st_server st; st_codec := st_codec st; st_main := st_main st;
     st_pump := st_pump st; st_streamErr := st_streamErr st;
     st_numCalls := st_numCalls st; st_closed := {[ ch ]} ∪ st_closed st;
     st_trace := st_trace st |}.

(** The [case data := <-sendChan] of the pumper, the handler going on as [k]. *)
Definition pumpData (st : cstate) (v : payload) (k : handler) : cstate :=
  let r := sendResponse (st_server st) (req c) (BData v) (st_codec st) "" false in
  {| st_server := s_server r;
     st_codec := s_codec r;
     st_main := MRunning k;
     st_pump := match s_err r with Some e => PErrSend e | None => PSelect end;
     st_streamErr := s_err r;
     st_numCalls := st_numCalls st;
     st_closed := st_closed st;
     st_trace := st_trace st ++ [EvWrite (s_frame r) (s_werr r)] |}.

(** [errChan <- e] meets the handler's receive; the pumper returns. *)
Definition deliverErr (st : cstate) (e : string) (k : string -> handler) : cstate :=
  {| st_server := st_server st; st_codec := st_codec st;
     st_main := MRunning (k e);
     st_pump := PExited;
     st_streamErr := st_streamErr st;
     st_numCalls := st_numCalls st; st_closed := st_closed st;
     st_trace := st_trace st ++ [EvErrChan e] |}.

(** One step of the executor and its pumper. [function.Call] is taken to
    run the handler: a panic of reflect over an argument that is not
    assignable to its parameter is not a step of this relation. *)
Definition exec (ch : choice) (st : cstate) : option cstate :=
  match ch, st_main st, st_pump st with
  | CStart, MStart, _ =>
      let lastArg := if stream (mtype c) then VStream else replyv c in
      let args := callArgs lastArg in
      Some {| st_server := st_server st; st_codec := st_codec st;
              st_main := MRunning (method_Func (method (mtype c)) args);
              st_pump := if stream (mtype c) then PSelect else PNone;
              st_streamErr := st_streamErr st;
              st_numCalls := S (st_numCalls st);
              st_closed := st_closed st;
              st_trace := st_trace st ++ [EvCall args] |}
  | CReturn, MRunning (HReturn e), _ =>
      if stream (mtype c) then Some (setMain st (MWait e) [EvReturn e])
      else Some (finish (setMain st (MRunning (HReturn e)) [EvReturn e])
                   (BValue (replyv c)) (errString e))
  | CData, MRunning (HSend v k), PSelect => Some (pumpData st v k)
  | CData, MRunning (HSelect v k _), PSelect => Some (pumpData st v k)
  | CFuncDone, MWait _, PSelect => Some (setPump st PExited)
  | CEof, _, PSelect =>
      if decide (eof c ∈ st_closed st) then Some (setPump st (PErrSend io_EOF))
      else None
  | CStop, _, PSelect =>
      if decide (stop c ∈ st_closed st) then Some (setPump st (PErrSend io_EOF))
      else None
  | CErrRecv, MRunning (HRecv k), PErrSend e => Some (deliverErr st e k)
  | CErrRecv, MRunning (HSelect _ _ k), PErrSend e => Some (deliverErr st e k)
  | CFinish, MWait e, PExited =>
      Some (finish st BNil (streamErrmsg e (st_streamErr st)))
  | CCloseEof, _, _ => Some (closeChan st (eof c))
  | CCloseStop, _, _ => Some (closeChan st (stop c))
  | _, _, _ => None
  end.

(** A schedule, run from the left. *)
Fixpoint run (sched : list choice) (st : cstate) : option cstate :=
  match sched with
  | [] => Some st
  | ch :: rest =>
      match exec ch st with
      | Some st' => run rest st'
      | None => None
      end
  end.

(** The state in which [go service.call(c)] finds the world. *)
Definition initState (server : Server) (codec : Codec) (closed : gset chan) : cstate :=
  {| st_server := server; st_codec := codec; st_main := MStart;
     st_pump := PNone; st_streamErr := None;
     st_numCalls := numCalls (mtype c); st_closed := closed; st_trace := [] |}.

End Call.

(** Reading a trace. *)
Definition terminalFrames (tr : list event) : list frame :=
  omap (fun ev => match ev with
                  | EvWrite f _ => if f_last f then Some f else None
                  | _ => None
                  end) tr.

Definition returnsOf (tr : list event) : list (option string) :=
  omap (fun ev => match ev with EvReturn e => Some e | _ => None end) tr.

Definition closesOf (ch : chan) (tr : list event) : nat :=
  length (omap (fun ev => match ev with
                          | EvClose c' => if decide (c' = ch) then Some c' else None
                          | _ => None
                          end) tr).

(** ** The connection dispatcher *)

(** Go compares these errors by identity; the text is [Error()]. *)
Inductive error :=
| ErrCloseStream            (* errCloseStream *)
| ErrRead (e : readErr)     (* an error of the codec, as it came *)
| ErrNew (msg : string).    (* errors.New(msg) *)

Definition errorString (e : error) : string :=
  match e with
  | ErrCloseStream => "rpc: close stream"
  | ErrRead r => readErrString r
  | ErrNew msg => msg
  end.

(** [strings.Split(s, ".")] *)
Fixpoint splitDot (s : string) : list string :=
  match s with
  | EmptyString => [""]
  | String a rest =>
      if Ascii.eqb a "."%char then "" :: splitDot rest
      else
        match splitDot rest with
        | x :: xs => String a x :: xs
        | [] => [String a ""]
        end
  end.

(** [reflect.New(t)]: the next free address, holding a zero [t]. *)
Definition New (t : type) (nextAddr : nat) : Value * nat :=
  (VNew t nextAddr, S nextAddr).

(** [t.Elem()], which panics unless [t] is a pointer. *)
Definition Elem (t : type) : option type :=
  match t with TPtr _ _ e => Some e | TBase _ _ _ => None end.

Record hdrResult := {
  h_server : Server;
  h_codec : Codec;
  h_service : option service;
  h_mtype : option methodType;
  h_req : option Request;
  h_keepReading : bool;
  h_err : option error
}.

Definition readRequestHeader (server : Server) (codec : Codec) : hdrResult :=
  let '(server, _) := getRequest server in
  match ReadRequestHeader codec with
  | (codec, inl e) =>
      {| h_server := server; h_codec := codec; h_service := None;
         h_mtype := None; h_req := None; h_keepReading := false;
         h_err := Some match e with
                       | OtherErr m =>
                           ErrNew ("rpc: server cannot decode request: " ++ m)
                       | _ => ErrRead e
                       end |}
  | (codec, inr req) =>
      let res service mtype err :=
        {| h_server := server; h_codec := codec; h_service := service;
           h_mtype := mtype; h_req := Some req; h_keepReading := true;
           h_err := err |} in
      if String.eqb (req_ServiceMethod req) "CloseStream" then
        res None None (Some ErrCloseStream)
      else
        match splitDot (req_ServiceMethod req) with
        | [sname; mname] =>
            match serviceMap server !! sname with
            | None =>
                res None None
                  (Some (ErrNew ("rpc: can't find service " ++ req_ServiceMethod req)))
            | Some service =>
                match methods service !! mname with
                | None =>
                    res (Some service) None
                      (Some (ErrNew ("rpc: can't find method " ++ req_ServiceMethod req)))
                | Some mtype => res (Some service) (Some mtype) None
                end
            end
        | _ =>
            res None None
              (Some (ErrNew ("rpc: service/method request ill-formed: "
                             ++ req_ServiceMethod req)))
        end
  end.

Record reqResult := {
  r_hdr : hdrResult;
  r_codec : Codec;
  r_nextAddr : nat;
  r_argv : Value;
  r_replyv : Value;
  r_err : option error;
  r_bodyReads : list (option Value)   (* the sinks given to ReadRequestBody *)
}.

(** [None] is a panic of [Elem]. *)
Definition readRequest (server : Server) (codec : Codec) (nextAddr : nat)
    : option reqResult :=
  let h := readRequestHeader server codec in
  match h_err h, h_mtype h with
  | Some err, _ =>
      if negb (h_keepReading h) then
        Some {| r_hdr := h; r_codec := h_codec h; r_nextAddr := nextAddr;
                r_argv := VInvalid; r_replyv := VInvalid; r_err := Some err;
                r_bodyReads := [] |}
      else
        let '(codec, _) := ReadRequestBody (h_codec h) in
        Some {| r_hdr := h; r_codec := codec; r_nextAddr := nextAddr;
                r_argv := VInvalid; r_replyv := VInvalid; r_err := Some err;
                r_bodyReads := [None] |}
  | None, None => None
  | None, Some mtype =>
      let '(argv, nextAddr, argIsValue) :=
        match ArgType mtype with
        | TPtr _ _ e => (New e nextAddr, false)
        | t => (New t nextAddr, true)
        end in
      match ReadRequestBody (h_codec h) with
      | (codec, Some e) =>
          Some {| r_hdr := h; r_codec := codec; r_nextAddr := nextAddr;
                  r_argv := argv; r_replyv := VInvalid;
                  r_err := Some (ErrRead e); r_bodyReads := [Some argv] |}
      | (codec, None) =>
          let argv' := if argIsValue : bool then VElem argv else argv in
          if stream mtype then
            Some {| r_hdr := h; r_codec := codec; r_nextAddr := nextAddr;
                    r_argv := argv'; r_replyv := VInvalid; r_err := None;
                    r_bodyReads := [Some argv] |}
          else
            match Elem (ReplyType mtype) with
            | None => None
            | Some e =>
                let '(replyv, nextAddr) := New e nextAddr in
                Some {| r_hdr := h; r_codec := codec; r_nextAddr := nextAddr;
                        r_argv := argv'; r_replyv := replyv; r_err := None;
                        r_bodyReads := [Some argv] |}
            end
      end
  end.

(** The goroutines the reader starts. *)
Inductive task :=
| TCall (s : service) (c : call)   (* go service.call(call{...}) *)
| TWatch (seq : Z) (done : chan)   (* the goroutine that waits for done *)
| TCancel (seq : Z).               (* the goroutine of a CloseStream *)

(** What the reader does, oldest first. *)
Inductive devent :=
| DReadBody (sink : option Value)            (* codec.ReadRequestBody(sink) *)
| DWrite (f : frame) (werr : option string)  (* codec.WriteResponse *)
| DGo (t : task)
| DClose (ch : chan)
| DCodecClose.

Inductive logLine :=
| LogBadSeq (seq : Z)                (* "rpc warning: received bad seqnum" *)
| LogEntry (seq : Z) (m : string).   (* the loggers called on an entry *)

(** One connection: the server and codec it shares, the allocator of
    reflect.New and of make(chan), the two maps of the serving loop, the
    closed channels, and what was done so far. *)
Record conn := {
  cn_server : Server;
  cn_codec : Codec;
  cn_nextAddr : nat;
  cn_nextChan : chan;
  cn_stopChans : gmap Z chan;
  cn_requestLogMap : gmap Z string;
  cn_closed : gset chan;
  cn_events : list devent;
  cn_log : list logLine
}.

Inductive control := Continue | Break | Panic.

(** The reader's own updates of a connection. *)
Definition afterRead (cn : conn) (server : Server) (codec : Codec)
    (nextAddr : nat) (evs : list devent) : conn :=
  {| cn_server := server; cn_codec := codec; cn_nextAddr := nextAddr;
     cn_nextChan := cn_nextChan cn; cn_stopChans := cn_stopChans cn;
     cn_requestLogMap := cn_requestLogMap cn; cn_closed := cn_closed cn;
     cn_events := cn_events cn ++ evs; cn_log := cn_log cn |}.

(** The tail of an iteration that accepted [req]: log entry, the two new
    channels, the stop entry, the watcher and the executor. The log entry
    keeps the method text as it is now; the code keeps a pointer into the
    header, which reads differently once the header has been recycled. *)
Definition dispatch (cn : conn) (contextVal : Value) (eof : chan)
    (service : service) (mtype : methodType) (req : Request)
    (argv replyv : Value) : conn :=
  let done := cn_nextChan cn in
  let stop := S (cn_nextChan cn) in
  let c := {| mtype := mtype; req := req; argv := argv; replyv := replyv;
              context := contextVal; eof := eof; stop := stop; done := done |} in
  {| cn_server := cn_server cn; cn_codec := cn_codec cn;
     cn_nextAddr := cn_nextAddr cn;
     cn_nextChan := S (S (cn_nextChan cn));
     cn_stopChans := <[req_Seq req := stop]> (cn_stopChans cn);
     cn_requestLogMap := <[req_Seq req := req_ServiceMethod req]> (cn_requestLogMap cn);
     cn_closed := cn_closed cn;
     cn_events := cn_events cn ++ [DGo (TWatch (req_Seq req) done); DGo (TCall service c)];
     cn_log := cn_log cn |}.

(** One iteration of the [for] loop of [ServeCodecWithContext]. *)
Definition serveStep (contextVal : Value) (eof : chan) (cn : conn) : conn * control :=
  match readRequest (cn_server cn) (cn_codec cn) (cn_nextAddr cn) with
  | None => (cn, Panic)
  | Some r =>
      let h := r_hdr r in
      let cn := afterRead cn (h_server h) (r_codec r) (r_nextAddr r)
                  (map DReadBody (r_bodyReads r)) in
      match r_err r with
      | Some ErrCloseStream =>
          match h_req h with
          | Some req => (afterRead cn (cn_server cn) (cn_codec cn) (cn_nextAddr cn)
                           [DGo (TCancel (req_Seq req))], Continue)
          | None => (cn, Panic)
          end
      | Some err =>
          if negb (h_keepReading h) then (cn, Break)
          else
            match h_req h with
            | Some req =>
                let sr := sendResponse (cn_server cn) req invalidRequest
                            (cn_codec cn) (errorString err) true in
                (afterRead cn (freeRequest (s_server sr) req) (s_codec sr)
                   (cn_nextAddr cn) [DWrite (s_frame sr) (s_werr sr)], Continue)
            | None => (cn, Continue)
            end
      | None =>
          match h_req h, h_service h, h_mtype h with
          | Some req, Some service, Some mtype =>
              (dispatch cn contextVal eof service mtype req (r_argv r) (r_replyv r),
               Continue)
          | _, _, _ => (cn, Panic)
          end
      end
  end.

(** What follows the [break]: [close(eof)], [codec.Close()]. *)
Definition hangUp (eof : chan) (cn : conn) : conn :=
  {| cn_server := cn_server cn;
     cn_codec := CloseCodec (cn_codec cn);
     cn_nextAddr := cn_nextAddr cn; cn_nextChan := cn_nextChan cn;
     cn_stopChans := cn_stopChans cn;
     cn_requestLogMap := cn_requestLogMap cn;
     cn_closed := {[ eof ]} ∪ cn_closed cn;
     cn_events := cn_events cn ++ [DClose eof; DCodecClose];
     cn_log := cn_log cn |}.

(** The loop. [None] is a loop that did not end within [fuel] iterations. *)
Fixpoint serveLoop (fuel : nat) (contextVal : Value) (eof : chan) (cn : conn)
    : option (conn * control) :=
  match fuel with
  | O => None
  | S fuel' =>
      match serveStep contextVal eof cn with
      | (cn', Continue) => serveLoop fuel' contextVal eof cn'
      | (cn', Break) => Some (hangUp eof cn', Break)
      | (cn', Panic) => Some (cn', Panic)
      end
  end.

(** The context value of a connection: [reflect.ValueOf(context)], or for a
    nil context [reflect.New(server.contextType)]. *)
Definition contextValue (server : Server) (context : option (type * payload))
    (nextAddr : nat) : Value * nat :=
  match context with
  | Some (t, d) => (VOf t d, nextAddr)
  | None => New (contextType server) nextAddr
  end.

(** The connection as [ServeCodecWithContext] sets it up before the loop;
    [nextAddr] and [nextChan] are the allocator when it is called. *)
Definition openConn (server : Server) (codec : Codec)
    (context : option (type * payload)) (nextAddr : nat) (nextChan : chan)
    : conn * Value * chan :=
  let eof := nextChan in
  let '(contextVal, nextAddr) := contextValue server context nextAddr in
  ({| cn_server := server; cn_codec := codec; cn_nextAddr := nextAddr;
      cn_nextChan := S nextChan; cn_stopChans := ∅; cn_requestLogMap := ∅;
      cn_closed := ∅; cn_events := []; cn_log := [] |}, contextVal, eof).

Definition ServeCodecWithContext (server : Server) (codec : Codec)
    (context : option (type * payload)) (nextAddr : nat) (nextChan : chan)
    : option (conn * control) :=
  let '(cn, contextVal, eof) := openConn server codec context nextAddr nextChan in
  serveLoop (S (length (input codec))) contextVal eof cn.

Definition ServeCodec (server : Server) (codec : Codec) (nextAddr : nat)
    (nextChan : chan) : option (conn * control) :=
  ServeCodecWithContext server codec None nextAddr nextChan.

(** The closure [maybeLog]. *)
Definition maybeLog (seq : Z) (cn : conn) : conn :=
  match cn_requestLogMap cn !! seq with
  | None =>
      {| cn_server := cn_server cn; cn_codec := cn_codec cn;
         cn_nextAddr := cn_nextAddr cn; cn_nextChan := cn_nextChan cn;
         cn_stopChans := cn_stopChans cn;
         cn_requestLogMap := cn_requestLogMap cn; cn_closed := cn_closed cn;
         cn_events := cn_events cn; cn_log := cn_log cn ++ [LogBadSeq seq] |}
  | Some m =>
      {| cn_server := cn_server cn; cn_codec := cn_codec cn;
         cn_nextAddr := cn_nextAddr cn; cn_nextChan := cn_nextChan cn;
         cn_stopChans := cn_stopChans cn;
         cn_requestLogMap := delete seq (cn_requestLogMap cn);
         cn_closed := cn_closed cn;
         cn_events := cn_events cn; cn_log := cn_log cn ++ [LogEntry seq m] |}
  end.

Definition setStops (cn : conn) (m : gmap Z chan) (closed : gset chan)
    (evs : list devent) : conn :=
  {| cn_server := cn_server cn; cn_codec := cn_codec cn;
     cn_nextAddr := cn_nextAddr cn; cn_nextChan := cn_nextChan cn;
     cn_stopChans := m; cn_requestLogMap := cn_requestLogMap cn;
     cn_closed := closed; cn_events := cn_events cn ++ evs; cn_log := cn_log cn |}.

(** The goroutine started for a CloseStream with this [seq]. *)
Definition cancelStream (seq : Z) (cn : conn) : conn :=
  let stop := cn_stopChans cn !! seq in
  let cn := setStops cn (delete seq (cn_stopChans cn)) (cn_closed cn) [] in
  let cn := maybeLog seq cn in
  match stop with
  | None => cn
  | Some ch => setStops cn (cn_stopChans cn) ({[ ch ]} ∪ cn_closed cn) [DClose ch]
  end.

(** The watcher, once [done] is closed. *)
Definition watchDone (seq : Z) (cn : conn) : conn :=
  maybeLog seq (setStops cn (delete seq (cn_stopChans cn)) (cn_closed cn) []).

(** * Statement vocabulary and sample inputs *)

(** The parameter profile after the receiver: [(arg, reply)] or
    [(context, arg, reply)]. *)
Definition paramShape (m : Method) (arg reply : type) (ctx : option type) : Prop :=
  (exists rcv, fn_In (method_Type m) = [rcv; arg; reply] /\ ctx = None) \/
  (exists rcv c, fn_In (method_Type m) = [rcv; c; arg; reply] /\ ctx = Some c).

(** The acceptance conditions of the validator, read off a method. *)
Definition acceptable (upper : Z -> bool) (m : Method) (arg reply : type)
    (ctx : option type) (strm : bool) : Prop :=
  method_PkgPath m = "" /\
  paramShape m arg reply ctx /\
  isExportedOrBuiltinType upper arg = true /\
  ((reply = typeOfStream /\ strm = true) \/
   (exists n p e, reply = TPtr n p e /\
                  isExportedOrBuiltinType upper e = true /\ strm = false)) /\
  fn_Out (method_Type m) = [typeOfError].

(** The same method with another parameter list. *)
Definition withIn (m : Method) (ins : list type) : Method :=
  {| method_Name := method_Name m; method_PkgPath := method_PkgPath m;
     method_Type := {| fn_In := ins; fn_Out := fn_Out (method_Type m) |};
     method_Func := method_Func m |}.

(** The service name [register] settles on. *)
Definition serviceName (rcvr : Receiver) (name : string) (useName : bool) : string :=
  if useName then name else Name (indirect (rcvr_typ rcvr)).

(** No method of the receiver passes the validator. *)
Definition noMethods (upper : Z -> bool) (rcvr : Receiver) : Prop :=
  Forall (fun m => prepareMethod upper m = None) (rcvr_methods rcvr).

(** A range table with nothing above Latin-1; the names of the samples
    below are ASCII, where no table is consulted. *)
Definition noneAboveLatin1 (r : Z) : bool := false.

Definition tInt : type := TBase KInt "int" "".
Definition tArgs : type := TBase KStruct "Args" "main".
Definition tArith : type := PtrTo (TBase KInt "Arith" "main").

(** [func (t *Arith) Multiply(args *Args, reply *int) error] *)
Definition exMultiply : Method :=
  {| method_Name := "Multiply"; method_PkgPath := "";
     method_Type := {| fn_In := [tArith; PtrTo tArgs; PtrTo tInt];
                       fn_Out := [typeOfError] |};
     method_Func := fun _ => HReturn None |}.

(** [func (t *Arith) Count(ctx int, n int, stream Stream) error], which
    sends one value and returns nil. *)
Definition exCount : Method :=
  {| method_Name := "Count"; method_PkgPath := "";
     method_Type := {| fn_In := [tArith; tInt; tInt; typeOfStream];
                       fn_Out := [typeOfError] |};
     method_Func := fun _ => HSend "1" (HReturn None) |}.

Definition exArith : Receiver :=
  {| rcvr_typ := tArith; rcvr_methods := [exMultiply; exCount] |}.

(** The entry [register] builds for a receiver, and the server with it. *)
Definition newService (upper : Z -> bool) (rcvr : Receiver) (sname : string) : service :=
  {| name := sname; rcvr := VRcvr (rcvr_typ rcvr); typ := rcvr_typ rcvr;
     methods := installMethods upper (rcvr_methods rcvr) |}.

Definition installService (server : Server) (s : service) : Server :=
  {| serviceMap := <[name s := s]> (serviceMap server);
     freeReq := freeReq server; freeResp := freeResp server;
     contextType := contextType server |}.

(** The three ways a registration under a non-empty name is refused. *)
Definition regFailure (upper : Z -> bool) (server : Server) (rcvr : Receiver)
    (sname : string) (useName : bool) : Prop :=
  (isExported upper sname = false /\ useName = false) \/
  is_Some (serviceMap server !! sname) \/
  noMethods upper rcvr.

(** The descriptor of [exCount], and a call of it as the dispatcher would
    spawn it for the request (Arith.Count, seq 5). *)
Definition exCountType : methodType :=
  {| method := exCount; ArgType := tInt; ReplyType := typeOfStream;
     ContextType := Some tInt; stream := true; numCalls := 0 |}.

Definition exService : service := newService noneAboveLatin1 exArith "Arith".

Definition exCall : call :=
  {| mtype := exCountType;
     req := {| req_ServiceMethod := "Arith.Count"; req_Seq := 5 |};
     argv := VElem (VNew tInt 1); replyv := VInvalid;
     context := VNew typeOfString 0;
     eof := 0%nat; stop := 2%nat; done := 1%nat |}.

(** A codec whose next [WriteResponse] fails. *)
Definition brokenCodec : Codec :=
  {| input := []; writeErrs := [Some "broken pipe"]; codecClosed := false |}.

Definition idleCodec : Codec :=
  {| input := []; writeErrs := []; codecClosed := false |}.

(** A trace without terminal frame and without [close(c.done)]. *)
Definition quiet (c : call) (tr : list event) : Prop :=
  terminalFrames tr = [] /\ closesOf (done c) tr = 0%nat.

(** What the trace of a call looks like, by where the executor stands. *)
Definition callInv (c : call) (st : cstate) : Prop :=
  match st_main st with
  | MStart | MRunning _ => returnsOf (st_trace st) = [] /\ quiet c (st_trace st)
  | MWait e =>
      stream (mtype c) = true /\ returnsOf (st_trace st) = [e] /\
      quiet c (st_trace st)
  | MDone =>
      exists pre f werr e,
        st_trace st = (pre ++ [EvWrite f werr; EvClose (done c)])%list /\
        returnsOf pre = [e] /\ quiet c pre /\
        f_last f = true /\
        Seq (f_resp f) = req_Seq (req c) /\
        ServiceMethod (f_resp f) = req_ServiceMethod (req c) /\
        Error (f_resp f) =
          (if stream (mtype c) then streamErrmsg e (st_streamErr st)
           else errString e)
  end.

(** The server with [exArith] registered, and a peer that sends garbage
    where a header should be, followed by a well-formed request. *)
Definition exServer : Server := installService NewServer exService.

Definition garbledCodec : Codec :=
  {| input := [ {| wr_header := inl (OtherErr "gob: bad data"); wr_body := None |};
                {| wr_header := inr {| req_ServiceMethod := "Arith.Multiply";
                                       req_Seq := 8 |};
                   wr_body := None |} ];
     writeErrs := []; codecClosed := false |}.

(** A peer that sends an ill-formed method name, then a cancellation. *)
Definition chattyCodec : Codec :=
  {| input := [ {| wr_header := inr {| req_ServiceMethod := "NotDotted";
                                       req_Seq := 9 |};
                   wr_body := None |};
                {| wr_header := inr {| req_ServiceMethod := "CloseStream";
                                       req_Seq := 5 |};
                   wr_body := None |};
                {| wr_header := inr {| req_ServiceMethod := "Arith.Count";
                                       req_Seq := 6 |};
                   wr_body := None |} ];
     writeErrs := []; codecClosed := false |}.

(** A connection as it stands when the loop is entered. *)
Definition freshConn (server : Server) (codec : Codec) : conn :=
  {| cn_server := server; cn_codec := codec; cn_nextAddr := 1;
     cn_nextChan := 1%nat; cn_stopChans := ∅; cn_requestLogMap := ∅;
     cn_closed := ∅; cn_events := []; cn_log := [] |}.

(** The spawned executors all carry this context value and this [eof]. *)
Definition callsCarry (contextVal : Value) (eofChan : chan) (evs : list devent) : Prop :=
  forall s c, List.In (DGo (TCall s c)) evs ->
              context c = contextVal /\ eof c = eofChan.

(** Every descriptor of the registry is one the validator made for a
    method of that name. *)
Definition validated (upper : Z -> bool) (server : Server) : Prop :=
  forall sname sv mname mt,
    serviceMap server !! sname = Some sv ->
    methods sv !! mname = Some mt ->
    exists m, method_Name m = mname /\ prepareMethod upper m = Some mt.

(** The number of dots in a string. *)
Fixpoint dots (s : string) : nat :=
  match s with
  | EmptyString => 0
  | String a rest => if Ascii.eqb a "."%char then S (dots rest) else dots rest
  end.

(** What the reader adds to its events for one request after reading its
    body: a cancellation, an error response, or a watcher with an executor
    on two new channels. *)
Definition answered (eofChan : chan) (cn cn' : conn) (rq : Request)
    (evs : list devent) : Prop :=
  (evs = [DGo (TCancel (req_Seq rq))] /\ cn_nextChan cn' = cn_nextChan cn) \/
  (exists f werr,
     evs = [DWrite f werr] /\ f_last f = true /\ Seq (f_resp f) = req_Seq rq /\
     cn_nextChan cn' = cn_nextChan cn) \/
  (exists sv c,
     evs = [DGo (TWatch (req_Seq rq) (done c)); DGo (TCall sv c)] /\
     done c = cn_nextChan cn /\ stop c = S (cn_nextChan cn) /\
     cn_nextChan cn' = S (S (cn_nextChan cn)) /\
     req c = rq /\ eof c = eofChan /\
     cn_stopChans cn' !! req_Seq rq = Some (stop c)).

(** Counting in the reader's events. *)
Definition bodyReads (evs : list devent) : nat :=
  length (omap (fun ev => match ev with DReadBody k => Some k | _ => None end) evs).

Definition spawnedCalls (evs : list devent) : list call :=
  omap (fun ev => match ev with DGo (TCall _ c) => Some c | _ => None end) evs.

Definition watchedDones (evs : list devent) : list chan :=
  omap (fun ev => match ev with DGo (TWatch _ d) => Some d | _ => None end) evs.

Definition cancels (evs : list devent) : nat :=
  length (omap (fun ev => match ev with DGo (TCancel q) => Some q | _ => None end) evs).

Definition responses (evs : list devent) : nat :=
  length (omap (fun ev => match ev with DWrite f _ => Some f | _ => None end) evs).

(** The channels handed to the executors, in the order of their start. *)
Definition callChans (evs : list devent) : list chan :=
  flat_map (fun c => [done c; stop c]) (spawnedCalls evs).

(** The iterations of the serving loop up to its [break]. *)
Inductive reads (contextVal : Value) (eofChan : chan) : conn -> conn -> Prop :=
| reads_break cn cn' :
    serveStep contextVal eofChan cn = (cn', Break) ->
    cn_events cn' = cn_events cn ->
    cn_nextChan cn' = cn_nextChan cn ->
    reads contextVal eofChan cn cn'
| reads_next cn cn1 cn' rq sink evs :
    serveStep contextVal eofChan cn = (cn1, Continue) ->
    cn_events cn1 = (cn_events cn ++ DReadBody sink :: evs)%list ->
    answered eofChan cn cn1 rq evs ->
    reads contextVal eofChan cn1 cn' ->
    reads contextVal eofChan cn cn'.

(** What the events of a run of the loop add up to. *)
Definition tally (lo hi : chan) (evs : list devent) : Prop :=
  bodyReads evs = (length (spawnedCalls evs) + responses evs + cancels evs)%nat /\
  watchedDones evs = map done (spawnedCalls evs) /\
  NoDup (callChans evs) /\
  Forall (fun ch => (lo <= ch < hi)%nat) (callChans evs) /\
  Forall (fun ev => match ev with
                    | DClose _ | DCodecClose => False
                    | _ => True
                    end) evs.

(** Every frame of a trace echoes the request, and a non-terminal frame
    carries a streamed value under an empty error. *)
Definition framesEcho (c : call) (tr : list event) : Prop :=
  forall f werr, List.In (EvWrite f werr) tr ->
    Seq (f_resp f) = req_Seq (req c) /\
    ServiceMethod (f_resp f) = req_ServiceMethod (req c) /\
    (f_last f = false -> Error (f_resp f) = "" /\ exists v, f_body f = BData v).

(** The handler is told of the end of input only after [eof] or [stop] was
    closed. *)
Definition eofJustified (c : call) (st : cstate) : Prop :=
  (forall e, st_pump st = PErrSend e ->
     e = io_EOF /\ (eof c ∈ st_closed st \/ stop c ∈ st_closed st)) /\
  (forall e, List.In (EvErrChan e) (st_trace st) ->
     e = io_EOF /\ (eof c ∈ st_closed st \/ stop c ∈ st_closed st)).


(** A handler that streams the values [vs] one after the other and returns
    [e], without ever looking at [stream.Error]. *)
Fixpoint sends (vs : list payload) (e : option string) : handler :=
  match vs with
  | [] => HReturn e
  | v :: rest => HSend v (sends rest e)
  end.

(** The frames of a trace, in the order they were handed to the codec. *)
Definition framesOf (tr : list event) : list frame :=
  omap (fun ev => match ev with EvWrite f _ => Some f | _ => None end) tr.

(** The non-terminal frame for a streamed value, and the terminal frame of a
    stream with a non-empty error string. *)
Definition dataFrame (c : call) (v : payload) : frame :=
  {| f_resp := {| ServiceMethod := req_ServiceMethod (req c);
                  Seq := req_Seq (req c); Error := "" |};
     f_body := BData v; f_last := false |}.

Definition lastFrame (c : call) (errmsg : string) (reply : body) : frame :=
  {| f_resp := {| ServiceMethod := req_ServiceMethod (req c);
                  Seq := req_Seq (req c); Error := errmsg |};
     f_body := if String.eqb errmsg "" then reply else invalidRequest;
     f_last := true |}.

(** A call of [exMultiply] for the request (Arith.Multiply, seq 1). *)
Definition exUnaryCall : call :=
  {| mtype := {| method := exMultiply; ArgType := PtrTo tArgs;
                 ReplyType := PtrTo tInt; ContextType := None;
                 stream := false; numCalls := 0 |};
     req := {| req_ServiceMethod := "Arith.Multiply"; req_Seq := 1 |};
     argv := VNew tArgs 1; replyv := VNew tInt 2; context := VInvalid;
     eof := 0%nat; stop := 2%nat; done := 1%nat |}.

(** A receiver of the unexported type [*arith] with one valid method. *)
Definition exLower : Receiver :=
  {| rcvr_typ := PtrTo (TBase KInt "arith" "main"); rcvr_methods := [exMultiply] |}.

(** Every response among these events is terminal and has the placeholder
    for its body. *)
Definition onlyErrorResponses (evs : list devent) : Prop :=
  forall f werr, List.In (DWrite f werr) evs ->
    f_last f = true /\ f_body f = invalidRequest.

(** The call of [exCount] for (Arith.Count, seq 5) on a connection served
    with the context value 7 of type int, the type [exCount] declares. *)
Definition exTypedCall : call :=
  {| mtype := exCountType;
     req := {| req_ServiceMethod := "Arith.Count"; req_Seq := 5 |};
     argv := VElem (VNew tInt 1); replyv := VInvalid;
     context := VOf tInt "7";
     eof := 0%nat; stop := 2%nat; done := 1%nat |}.

(** [func (t *Arith) Watch(ctx int, n int, stream Stream) error], which
    waits on [stream.Error] and then returns nil; and a call of it. *)
Definition exWatch : Method :=
  {| method_Name := "Watch"; method_PkgPath := "";
     method_Type := {| fn_In := [tArith; tInt; tInt; typeOfStream];
                       fn_Out := [typeOfError] |};
     method_Func := fun _ => HRecv (fun _ => HReturn None) |}.

Definition exWatchCall : call :=
  {| mtype := {| method := exWatch; ArgType := tInt; ReplyType := typeOfStream;
                 ContextType := Some tInt; stream := true; numCalls := 0 |};
     req := {| req_ServiceMethod := "Arith.Watch"; req_Seq := 6 |};
     argv := VElem (VNew tInt 1); replyv := VInvalid;
     context := VOf tInt "7";
     eof := 0%nat; stop := 2%nat; done := 1%nat |}.

(** * Properties *)

(** ** The validator *)

Section ValidatorFacts.

Variable upper : Z -> bool.

Lemma Stream_exported : isExportedOrBuiltinType upper typeOfStream = true.
Proof. reflexivity. Qed.

Lemma exported_ptr n p e :
  isExportedOrBuiltinType upper (TPtr n p e) = isExportedOrBuiltinType upper e.
Proof. reflexivity. Qed.

Lemma eqb_empty_true (s : string) : String.eqb s "" = true <-> s = "".
Proof. apply String.eqb_eq. Qed.

Lemma prepareMethod_sound m mt :
  prepareMethod upper m = Some mt ->
  acceptable upper m (ArgType mt) (ReplyType mt) (ContextType mt) (stream mt)
  /\ method mt = m /\ numCalls mt = 0%nat.
Proof.
  unfold prepareMethod, acceptable, paramShape.
  destruct (String.eqb (method_PkgPath m) "") eqn:Hpkg; simpl; [|discriminate].
  apply String.eqb_eq in Hpkg.
  destruct (fn_In (method_Type m)) as [|rcv [|x1 [|x2 [|x3 [|x4 rest]]]]] eqn:Hin;
    try discriminate.
  - (* three ins *)
    destruct (isExportedOrBuiltinType upper x1) eqn:Harg; simpl; [|discriminate].
    destruct (decide (x2 = typeOfStream)) as [->|Hns].
    + rewrite Stream_exported; simpl.
      destruct (fn_Out (method_Type m)) as [|o [|o' os]] eqn:Hout; try discriminate.
      destruct (decide (o = typeOfError)) as [->|]; [|discriminate].
      intros [= <-]; simpl. repeat split; eauto.
    + destruct (decide (kind x2 = Ptr)) as [Hk|]; [|discriminate].
      destruct x2 as [|n p e]; [discriminate|].
      destruct (isExportedOrBuiltinType upper (TPtr n p e)) eqn:Hrep; simpl;
        [|discriminate].
      destruct (fn_Out (method_Type m)) as [|o [|o' os]] eqn:Hout; try discriminate.
      destruct (decide (o = typeOfError)) as [->|]; [|discriminate].
      intros [= <-]; simpl. repeat split; eauto.
      right. exists n, p, e. rewrite <- exported_ptr with (n := n) (p := p). auto.
  - (* four ins *)
    destruct (isExportedOrBuiltinType upper x2) eqn:Harg; simpl; [|discriminate].
    destruct (decide (x3 = typeOfStream)) as [->|Hns].
    + rewrite Stream_exported; simpl.
      destruct (fn_Out (method_Type m)) as [|o [|o' os]] eqn:Hout; try discriminate.
      destruct (decide (o = typeOfError)) as [->|]; [|discriminate].
      intros [= <-]; simpl. repeat split; eauto.
    + destruct (decide (kind x3 = Ptr)) as [Hk|]; [|discriminate].
      destruct x3 as [|n p e]; [discriminate|].
      destruct (isExportedOrBuiltinType upper (TPtr n p e)) eqn:Hrep; simpl;
        [|discriminate].
      destruct (fn_Out (method_Type m)) as [|o [|o' os]] eqn:Hout; try discriminate.
      destruct (decide (o = typeOfError)) as [->|]; [|discriminate].
      intros [= <-]; simpl. repeat split; eauto.
      right. exists n, p, e. rewrite <- exported_ptr with (n := n) (p := p). auto.
Qed.

Lemma prepareMethod_complete m arg reply ctx strm :
  acceptable upper m arg reply ctx strm ->
  prepareMethod upper m =
    Some {| method := m; ArgType := arg; ReplyType := reply;
            ContextType := ctx; stream := strm; numCalls := 0 |}.
Proof.
  unfold acceptable, paramShape, prepareMethod.
  intros (Hpkg & Hshape & Harg & Hreply & Hout).
  rewrite Hpkg, Hout; simpl.
  assert (Hgo :
    (if negb (isExportedOrBuiltinType upper arg) then None
     else
       match
         (if decide (reply = typeOfStream) then Some true
          else if decide (kind reply = Ptr) then Some false else None)
       with
       | None => None
       | Some stream0 =>
           if negb (isExportedOrBuiltinType upper reply) then None
           else
             if decide (typeOfError = typeOfError) then
               Some {| method := m; ArgType := arg; ReplyType := reply;
                       ContextType := ctx; stream := stream0; numCalls := 0 |}
             else None
       end) =
    Some {| method := m; ArgType := arg; ReplyType := reply;
            ContextType := ctx; stream := strm; numCalls := 0 |}).
  { rewrite Harg; simpl.
    destruct Hreply as [[-> ->]|(n & p & e & -> & He & ->)].
    - rewrite decide_True by reflexivity. rewrite Stream_exported; simpl.
      reflexivity.
    - rewrite decide_False by discriminate.
      rewrite decide_True by reflexivity.
      rewrite exported_ptr, He; simpl.
      reflexivity. }
  destruct Hshape as [(rcv & -> & ->)|(rcv & c & -> & ->)]; exact Hgo.
Qed.

End ValidatorFacts.

(** C3: the validator accepts a method exactly when it is exported, has
    the parameters (arg, reply) or (context, arg, reply) after the receiver,
    arg is exported or builtin, reply is Stream (descriptor marked streaming)
    or a pointer to an exported or builtin type (not streaming), and the only
    result is of type error; every other method gets the nil descriptor. *)
Theorem prepareMethod_accepts_iff (upper : Z -> bool) (m : Method) :
  (forall mt,
     prepareMethod upper m = Some mt <->
     acceptable upper m (ArgType mt) (ReplyType mt) (ContextType mt) (stream mt)
     /\ method mt = m /\ numCalls mt = 0%nat) /\
  (prepareMethod upper m = None <->
   ~ exists arg reply ctx strm, acceptable upper m arg reply ctx strm).
Proof.
  split.
  - intros mt; split.
    + apply prepareMethod_sound.
    + intros (Hacc & Hm & Hn).
      rewrite (prepareMethod_complete upper _ _ _ _ _ Hacc).
      destruct mt; simpl in *; subst; reflexivity.
  - split.
    + intros Hnone (arg & reply & ctx & strm & Hacc).
      rewrite (prepareMethod_complete upper _ _ _ _ _ Hacc) in Hnone.
      discriminate.
    + intros Hno. destruct (prepareMethod upper m) as [mt|] eqn:E; [|reflexivity].
      exfalso; apply Hno. apply prepareMethod_sound in E as (Hacc & _).
      eauto 6.
Qed.

Lemma prepareMethod_accepts_iff_witness :
  prepareMethod noneAboveLatin1 exMultiply =
    Some {| method := exMultiply; ArgType := PtrTo tArgs; ReplyType := PtrTo tInt;
            ContextType := None; stream := false; numCalls := 0 |}.
Proof.
  apply (proj1 (prepareMethod_accepts_iff noneAboveLatin1 exMultiply)).
  simpl. split; [|split; reflexivity].
  unfold acceptable, paramShape. simpl.
  split; [reflexivity|].
  split; [left; exists tArith; split; reflexivity|].
  split; [reflexivity|].
  split; [|reflexivity].
  right. exists "", "", tInt. repeat split; reflexivity.
Defined.

Lemma acceptable_withIn upper m rcv c c' a r arg reply ctx strm :
  acceptable upper (withIn m [rcv; c; a; r]) arg reply ctx strm ->
  ctx = Some c /\
  acceptable upper (withIn m [rcv; c'; a; r]) arg reply (Some c') strm.
Proof.
  unfold acceptable, paramShape; simpl.
  intros (Hpkg & Hshape & Harg & Hreply & Hout).
  destruct Hshape as [(rcv0 & [=] & _)|(rcv0 & c0 & [= <- <- <- <-] & ->)].
  split; [reflexivity|].
  repeat split; auto. right. exists rcv, c'. auto.
Qed.

(** C9, as the code has it: the validator never looks at the server's
    context type. A method with a context parameter is accepted under the
    same conditions whatever the type of that parameter, and the descriptor
    records the declared type. *)
Theorem prepareMethod_ignores_context_type (upper : Z -> bool) (m : Method)
    (rcv c c' a r : type) :
  (forall mt, prepareMethod upper (withIn m [rcv; c; a; r]) = Some mt ->
              ContextType mt = Some c) /\
  (is_Some (prepareMethod upper (withIn m [rcv; c; a; r])) <->
   is_Some (prepareMethod upper (withIn m [rcv; c'; a; r]))).
Proof.
  split.
  - intros mt Hmt. apply prepareMethod_sound in Hmt as (Hacc & _).
    apply (acceptable_withIn _ _ _ _ c) in Hacc as [Hctx _]. exact Hctx.
  - split; intros [mt Hmt]; apply prepareMethod_sound in Hmt as (Hacc & _).
    + apply (acceptable_withIn _ _ _ _ c') in Hacc as [_ Hacc].
      rewrite (prepareMethod_complete upper _ _ _ _ _ Hacc). eauto.
    + apply (acceptable_withIn _ _ _ _ c) in Hacc as [_ Hacc].
      rewrite (prepareMethod_complete upper _ _ _ _ _ Hacc). eauto.
Qed.

Lemma prepareMethod_ignores_context_type_witness :
  is_Some (prepareMethod noneAboveLatin1
             (withIn exCount [tArith; typeOfString; tInt; typeOfStream])).
Proof.
  apply (proj1 (proj2 (prepareMethod_ignores_context_type noneAboveLatin1
                         exCount tArith tInt typeOfString tInt typeOfStream))).
  eexists. reflexivity.
Defined.

(** C9 as stated fails: on a server whose context type is string, a method
    whose context parameter is an int is accepted and installed. *)
Lemma context_type_mismatch_accepted :
  contextType NewServer = typeOfString /\
  tInt <> typeOfString /\
  (exists mt, prepareMethod noneAboveLatin1 exCount = Some mt /\
              ContextType mt = Some tInt) /\
  (exists s, serviceMap (fst (Register noneAboveLatin1 NewServer exArith)) !! "Arith"
               = Some s /\
             (ContextType <$> methods s !! "Count") = Some (Some tInt)).
Proof.
  split; [reflexivity|].
  split; [discriminate|].
  split.
  - eexists. split; reflexivity.
  - eexists. split; vm_compute; reflexivity.
Qed.

(** ** The registry *)

Section RegistryFacts.

Variable upper : Z -> bool.

Lemma foldl_install_nonempty (ms : list Method) (acc : gmap string methodType) :
  acc <> ∅ ->
  foldl (fun acc m =>
           match prepareMethod upper m with
           | Some mt => <[method_Name m := mt]> acc
           | None => acc
           end) acc ms <> ∅.
Proof.
  revert acc. induction ms as [|m ms IH]; intros acc Hacc; simpl; [exact Hacc|].
  apply IH. destruct (prepareMethod upper m); [apply insert_non_empty|exact Hacc].
Qed.

Lemma installMethods_from_empty (ms : list Method) :
  Forall (fun m => prepareMethod upper m = None) ms ->
  installMethods upper ms = ∅.
Proof.
  unfold installMethods. induction 1 as [|m ms Hm _ IH]; simpl; [reflexivity|].
  rewrite Hm. exact IH.
Qed.

Lemma foldl_install_some (ms : list Method) (acc : gmap string methodType) :
  ~ Forall (fun m => prepareMethod upper m = None) ms ->
  foldl (fun acc m =>
           match prepareMethod upper m with
           | Some mt => <[method_Name m := mt]> acc
           | None => acc
           end) acc ms <> ∅.
Proof.
  revert acc. induction ms as [|m ms IH]; intros acc Hnot; simpl.
  - exfalso. apply Hnot. constructor.
  - destruct (prepareMethod upper m) as [mt|] eqn:E.
    + apply foldl_install_nonempty, insert_non_empty.
    + apply IH. intros Hall. apply Hnot. constructor; assumption.
Qed.

Lemma installMethods_nonempty (ms : list Method) :
  ~ Forall (fun m => prepareMethod upper m = None) ms ->
  installMethods upper ms <> ∅.
Proof. apply foldl_install_some. Qed.

Lemma noMethods_dec (rcvr : Receiver) :
  {noMethods upper rcvr} + {~ noMethods upper rcvr}.
Proof.
  unfold noMethods. apply Forall_dec. intros m.
  destruct (prepareMethod upper m); [right; discriminate|left; reflexivity].
Qed.

Lemma size_installMethods (rcvr : Receiver) :
  size (installMethods upper (rcvr_methods rcvr)) = 0%nat <-> noMethods upper rcvr.
Proof.
  rewrite map_size_empty_iff. split.
  - intros Hempty. destruct (noMethods_dec rcvr) as [H|H]; [exact H|].
    exfalso. exact (installMethods_nonempty _ H Hempty).
  - apply installMethods_from_empty.
Qed.

End RegistryFacts.

(** C6, as the code has it: with an empty service name [register] does not
    return at all, it ends the process through log.Fatal. With a non-empty
    name it returns a non-nil error and leaves the server as it was exactly
    when the default name is unexported (and RegisterName was not used), the
    name is already registered, or no method passes the validator; otherwise
    it returns nil and the service map gains the new entry under that name. *)
Theorem register_outcome (upper : Z -> bool) (server : Server) (rcvr : Receiver)
    (name : string) (useName : bool) :
  let sname := serviceName rcvr name useName in
  let res := register upper server rcvr name useName in
  (sname = "" -> exists msg, res = (server, RegFatal msg)) /\
  (sname <> "" -> regFailure upper server rcvr sname useName ->
   exists msg, res = (server, RegErr msg)) /\
  (sname <> "" -> ~ regFailure upper server rcvr sname useName ->
   res = (installService server (newService upper rcvr sname), RegOk)).
Proof.
  unfold register, serviceName, regFailure. simpl.
  set (sname := if useName then name else Name (indirect (rcvr_typ rcvr))).
  split; [|split].
  - intros ->. simpl. eauto.
  - intros Hne Hfail. apply String.eqb_neq in Hne. rewrite Hne.
    destruct (negb (isExported upper sname) && negb useName) eqn:Hexp; [eauto|].
    destruct (serviceMap server !! sname) as [s0|] eqn:Hdup; [eauto|].
    destruct (decide (size (installMethods upper (rcvr_methods rcvr)) = 0%nat))
      as [Hz|Hnz]; [eauto|].
    exfalso. destruct Hfail as [[He Hu]|[[s0 Hs]|Hno]].
    + rewrite He, Hu in Hexp. discriminate.
    + discriminate.
    + apply Hnz. apply size_installMethods. exact Hno.
  - intros Hne Hok. apply String.eqb_neq in Hne. rewrite Hne.
    destruct (negb (isExported upper sname) && negb useName) eqn:Hexp.
    { exfalso. apply Hok. left. apply andb_true_iff in Hexp as [He Hu].
      apply negb_true_iff in He, Hu. auto. }
    destruct (serviceMap server !! sname) as [s0|] eqn:Hdup.
    { exfalso. apply Hok. right; left. eauto. }
    destruct (decide (size (installMethods upper (rcvr_methods rcvr)) = 0%nat))
      as [Hz|Hnz].
    { exfalso. apply Hok. right; right. apply size_installMethods. exact Hz. }
    reflexivity.
Qed.

Lemma register_outcome_witness :
  Register noneAboveLatin1 NewServer exArith =
    (installService NewServer (newService noneAboveLatin1 exArith "Arith"), RegOk).
Proof.
  apply (proj2 (proj2 (register_outcome noneAboveLatin1 NewServer exArith "" false))).
  - discriminate.
  - intros [[He _]|[[s0 Hs]|Hno]].
    + discriminate He.
    + discriminate Hs.
    + inversion Hno as [|m ms Hm _]. discriminate Hm.
Defined.

(** C6 as stated fails on the empty name: [RegisterName] with the name ""
    returns no error to its caller, the process is ended. *)
Lemma register_empty_name_is_fatal :
  serviceName exArith "" true = "" /\
  RegisterName noneAboveLatin1 NewServer "" exArith =
    (NewServer, RegFatal "rpc: no service name for type") /\
  ~ exists msg, snd (RegisterName noneAboveLatin1 NewServer "" exArith) = RegErr msg.
Proof.
  split; [reflexivity|]. split; [reflexivity|].
  intros [msg H]. discriminate H.
Qed.

(** ** [sendResponse] *)

(** What [sendResponse] hands to the codec. *)
Lemma sendResponse_header (server : Server) (req : Request) (reply : body)
    (codec : Codec) (errmsg : string) (last : bool) :
  let f := s_frame (sendResponse server req reply codec errmsg last) in
  ServiceMethod (f_resp f) = req_ServiceMethod req /\
  Seq (f_resp f) = req_Seq req /\
  Error (f_resp f) = errmsg /\
  f_last f = last /\
  f_body f = if String.eqb errmsg "" then reply else invalidRequest.
Proof.
  unfold sendResponse, getResponse.
  destruct (freeResp server) as [|r0 next];
    destruct (String.eqb errmsg "") eqn:E; simpl;
    destruct (WriteResponse codec _) as [codec' werr]; simpl;
    repeat split; try reflexivity;
    apply String.eqb_eq in E; symmetry; exact E.
Qed.

(** C8: the header handed to the codec echoes the request's service_method
    and seq, its error is the error string given, and with a non-empty error
    string the body handed over is the placeholder [invalidRequest], the
    reply only otherwise. *)
Theorem sendResponse_frame (server : Server) (req : Request) (reply : body)
    (codec : Codec) (errmsg : string) (last : bool) :
  let f := s_frame (sendResponse server req reply codec errmsg last) in
  ServiceMethod (f_resp f) = req_ServiceMethod req /\
  Seq (f_resp f) = req_Seq req /\
  Error (f_resp f) = errmsg /\
  f_last f = last /\
  f_body f = if String.eqb errmsg "" then reply else invalidRequest.
Proof.
  unfold sendResponse, getResponse.
  destruct (freeResp server) as [|r0 next];
    destruct (String.eqb errmsg "") eqn:E; simpl;
    destruct (WriteResponse codec _) as [codec' werr]; simpl;
    repeat split; try reflexivity;
    apply String.eqb_eq in E; symmetry; exact E.
Qed.

(** [sendResponse] never reports the failure of the write. *)
Lemma sendResponse_err_nil server req reply codec errmsg last :
  s_err (sendResponse server req reply codec errmsg last) = None.
Proof.
  unfold sendResponse, getResponse.
  destruct (freeResp server); destruct (negb (String.eqb errmsg ""));
    destruct (WriteResponse codec _); reflexivity.
Qed.

(** ** Traces *)

Lemma terminalFrames_app tr1 tr2 :
  terminalFrames (tr1 ++ tr2) = (terminalFrames tr1 ++ terminalFrames tr2)%list.
Proof. apply omap_app. Qed.

Lemma returnsOf_app tr1 tr2 :
  returnsOf (tr1 ++ tr2) = (returnsOf tr1 ++ returnsOf tr2)%list.
Proof. apply omap_app. Qed.

Lemma closesOf_app ch tr1 tr2 :
  closesOf ch (tr1 ++ tr2) = (closesOf ch tr1 + closesOf ch tr2)%nat.
Proof. unfold closesOf. rewrite omap_app, length_app. reflexivity. Qed.

Lemma terminalFrames_In tr f werr :
  List.In (EvWrite f werr) tr -> f_last f = true -> List.In f (terminalFrames tr).
Proof.
  induction tr as [|ev tr IH]; simpl; [tauto|].
  intros [->|Hin] Hlast.
  - unfold terminalFrames; simpl. rewrite Hlast. left; reflexivity.
  - specialize (IH Hin Hlast). unfold terminalFrames in *; simpl.
    destruct ev as [| |f' w'| |]; simpl; auto.
    destruct (f_last f'); simpl; auto.
Qed.

(** ** The executor *)

Section CallFacts.

Variable s : service.
Variable c : call.

Lemma quiet_nil : quiet c [].
Proof. split; reflexivity. Qed.

Lemma quiet_app tr1 tr2 : quiet c tr1 -> quiet c tr2 -> quiet c (tr1 ++ tr2).
Proof.
  intros [T1 C1] [T2 C2]. split.
  - rewrite terminalFrames_app, T1, T2. reflexivity.
  - rewrite closesOf_app, C1, C2. reflexivity.
Qed.

Lemma quiet_call args : quiet c [EvCall args].
Proof. split; reflexivity. Qed.

Lemma quiet_return e : quiet c [EvReturn e].
Proof. split; reflexivity. Qed.

Lemma quiet_errchan e : quiet c [EvErrChan e].
Proof. split; reflexivity. Qed.

Lemma quiet_data server codec v :
  let r := sendResponse server (req c) (BData v) codec "" false in
  quiet c [EvWrite (s_frame r) (s_werr r)].
Proof.
  intros r. destruct (sendResponse_header server (req c) (BData v) codec "" false)
    as (_ & _ & _ & Hlast & _).
  split; [|reflexivity]. unfold terminalFrames; simpl.
  fold r in Hlast. rewrite Hlast. reflexivity.
Qed.

Lemma finish_inv st reply errmsg e :
  returnsOf (st_trace st) = [e] ->
  quiet c (st_trace st) ->
  errmsg = (if stream (mtype c) then streamErrmsg e (st_streamErr st)
            else errString e) ->
  callInv c (finish c st reply errmsg).
Proof.
  intros Hret Hq Herr. unfold callInv, finish; simpl.
  destruct (sendResponse_header (st_server st) (req c) reply (st_codec st) errmsg true)
    as (Hsm & Hseq & He & Hlast & _).
  eexists _, _, _, e. split; [reflexivity|].
  repeat split; try apply Hq; auto.
  rewrite He. exact Herr.
Qed.

Lemma exec_inv ch st st' :
  callInv c st -> exec s c ch st = Some st' -> callInv c st'.
Proof.
  intros Hinv Hex.
  destruct st as [srv cd mn pm se nc cl tr].
  unfold exec in Hex; simpl in Hex.
  destruct (stream (mtype c)) eqn:Hstream.
  all: destruct ch, mn as [|h|e|]; try destruct h as [e'|v k|k|v k k'];
    destruct pm; simpl in Hex; try discriminate;
    repeat match type of Hex with
           | (if ?b then _ else _) = _ => destruct b eqn:?
           end;
    try discriminate; injection Hex as <-.
  all: unfold callInv in Hinv; simpl in Hinv.
  all: lazymatch goal with
       | |- callInv _ (finish _ _ _ _) =>
           eapply finish_inv; simpl; rewrite ?Hstream
       | |- _ => unfold callInv; simpl
       end.
  all: try exact Hinv.
  all: repeat match goal with
              | H : _ /\ _ |- _ => destruct H
              | |- _ /\ _ => split
              | |- quiet _ (_ ++ _) => apply quiet_app
              | |- quiet _ [EvCall _] => apply quiet_call
              | |- quiet _ [EvReturn _] => apply quiet_return
              | |- quiet _ [EvErrChan _] => apply quiet_errchan
              | |- quiet _ [EvWrite _ _] => apply quiet_data
              | |- returnsOf (_ ++ _) = _ => rewrite returnsOf_app
              | H : returnsOf ?t = _ |- context [returnsOf ?t] => rewrite H
              end; simpl; auto; try congruence.
Qed.

Lemma init_inv server codec closed : callInv c (initState c server codec closed).
Proof. split; [reflexivity|apply quiet_nil]. Qed.

Lemma run_inv sched st st' :
  callInv c st -> run s c sched st = Some st' -> callInv c st'.
Proof.
  revert st. induction sched as [|ch sched IH]; intros st Hinv; simpl.
  - intros [= <-]. exact Hinv.
  - destruct (exec s c ch st) as [st1|] eqn:E; [|discriminate].
    apply IH. eapply exec_inv; eassumption.
Qed.

(** The variable [streamErr] only ever receives the result of
    [sendResponse], which is nil. *)
Lemma exec_streamErr ch st st' :
  st_streamErr st = None -> exec s c ch st = Some st' -> st_streamErr st' = None.
Proof.
  intros Hnil Hex.
  destruct st as [srv cd mn pm se nc cl tr].
  unfold exec in Hex; simpl in *.
  destruct ch, mn as [|h|e|]; try destruct h as [e'|v k|k|v k k'];
    destruct pm; simpl in Hex; try discriminate;
    repeat match type of Hex with
           | (if ?b then _ else _) = _ => destruct b eqn:?
           end;
    try discriminate; injection Hex as <-; simpl; auto using sendResponse_err_nil.
Qed.

Lemma run_streamErr sched st st' :
  st_streamErr st = None -> run s c sched st = Some st' -> st_streamErr st' = None.
Proof.
  revert st. induction sched as [|ch sched IH]; intros st Hnil; simpl.
  - intros [= <-]. exact Hnil.
  - destruct (exec s c ch st) as [st1|] eqn:E; [|discriminate].
    apply IH. eapply exec_streamErr; eassumption.
Qed.

(** Once the handler has returned and the pumper stands at [errChan <- e],
    nothing moves any more: there is no receiver left for [errChan], and
    [<-sendDone] waits for the pumper. *)
Lemma exec_blocked ch st st' e m :
  st_main st = MWait e -> st_pump st = PErrSend m ->
  exec s c ch st = Some st' ->
  st_main st' = MWait e /\ st_pump st' = PErrSend m /\ st_trace st' = st_trace st.
Proof.
  intros Hmain Hpump Hex.
  destruct st as [srv cd mn pm se nc cl tr]; simpl in *; subst.
  unfold exec in Hex; simpl in Hex.
  destruct ch; simpl in Hex; try discriminate;
    injection Hex as <-; simpl; auto.
Qed.

Lemma run_blocked sched st st' e m :
  st_main st = MWait e -> st_pump st = PErrSend m ->
  run s c sched st = Some st' ->
  st_main st' = MWait e /\ st_pump st' = PErrSend m /\ st_trace st' = st_trace st.
Proof.
  revert st. induction sched as [|ch sched IH]; intros st Hmain Hpump; simpl.
  - intros [= <-]. auto.
  - destruct (exec s c ch st) as [st1|] eqn:E; [|discriminate].
    destruct (exec_blocked _ _ _ _ _ Hmain Hpump E) as (Hm1 & Hp1 & Ht1).
    intros Hrun. destruct (IH _ Hm1 Hp1 Hrun) as (Hm2 & Hp2 & Ht2).
    repeat split; congruence.
Qed.

(** X12: safety of the executor. In every state it can reach, [c.done] was
    closed at most once, there are as many terminal frames as closes, and
    if it was closed, the close is the last thing that happened, right after
    the only terminal frame, which carries the seq and service_method of the
    request. *)
Lemma call_safety sched st server codec closed :
  run s c sched (initState c server codec closed) = Some st ->
  (closesOf (done c) (st_trace st) <= 1)%nat /\
  length (terminalFrames (st_trace st)) = closesOf (done c) (st_trace st) /\
  (closesOf (done c) (st_trace st) = 1%nat ->
   exists pre f werr,
     st_trace st = (pre ++ [EvWrite f werr; EvClose (done c)])%list /\
     quiet c pre /\ f_last f = true /\
     Seq (f_resp f) = req_Seq (req c) /\
     ServiceMethod (f_resp f) = req_ServiceMethod (req c)).
Proof.
  intros Hrun. pose proof (run_inv _ _ _ (init_inv server codec closed) Hrun) as Hinv.
  unfold callInv in Hinv.
  assert (Hlast : forall pre f werr, quiet c pre -> f_last f = true ->
            length (terminalFrames (pre ++ [EvWrite f werr; EvClose (done c)])) = 1%nat /\
            closesOf (done c) (pre ++ [EvWrite f werr; EvClose (done c)]) = 1%nat).
  { intros pre f werr [Ht Hc] Hl. rewrite terminalFrames_app, closesOf_app, Ht, Hc.
    unfold terminalFrames, closesOf; simpl. rewrite Hl; simpl.
    rewrite decide_True by reflexivity. split; reflexivity. }
  destruct (st_main st).
  - destruct Hinv as (_ & Ht & Hc). rewrite Ht, Hc. simpl.
    repeat split; [lia|discriminate].
  - destruct Hinv as (_ & Ht & Hc). rewrite Ht, Hc. simpl.
    repeat split; [lia|discriminate].
  - destruct Hinv as (_ & _ & Ht & Hc). rewrite Ht, Hc. simpl.
    repeat split; [lia|discriminate].
  - destruct Hinv as (pre & f & werr & e & -> & _ & Hq & Hl & Hseq & Hsm & _).
    destruct (Hlast pre f werr Hq Hl) as [H1 H2]. rewrite H1, H2.
    repeat split; [lia|]. intros _. eauto 10.
Qed.

End CallFacts.

(** The unary path runs straight through: once the handler returns, the
    reply is sent as the terminal frame and [c.done] is closed. *)
Lemma call_unary_completes (s : service) (c : call) (server : Server)
    (codec : Codec) (closed : gset chan) (e : option string) :
  stream (mtype c) = false ->
  method_Func (method (mtype c)) (callArgs s c (replyv c)) = HReturn e ->
  exists st f werr,
    run s c [CStart; CReturn] (initState c server codec closed) = Some st /\
    st_main st = MDone /\
    st_trace st = [EvCall (callArgs s c (replyv c)); EvReturn e;
                   EvWrite f werr; EvClose (done c)] /\
    f_last f = true /\
    Seq (f_resp f) = req_Seq (req c) /\
    Error (f_resp f) = errString e.
Proof.
  intros Hstream Hfun.
  destruct (sendResponse_header server (req c) (BValue (replyv c)) codec
              (errString e) true) as (_ & Hseq & Herr & Hlast & _).
  eexists _, _, _. split.
  - unfold run, exec, initState; simpl. rewrite Hstream; simpl.
    rewrite Hfun; simpl. rewrite ?Hstream. reflexivity.
  - simpl. repeat split; auto.
Qed.

(** On the streaming path the same cannot be said. Whenever the handler has
    returned while the pumper is at its [select] and [eof] is closed, the
    [select] may take [<-c.eof]; the pumper then blocks on the unbuffered
    [errChan], nobody is left to receive, and the executor never gets past
    [<-sendDone]. *)
Lemma pumper_eof_after_return_blocks (s : service) (c : call) (st : cstate)
    (e : option string) :
  st_main st = MWait e -> st_pump st = PSelect -> eof c ∈ st_closed st ->
  exists st1,
    exec s c CEof st = Some st1 /\
    forall sched st', run s c sched st1 = Some st' ->
      st_main st' = MWait e /\ st_trace st' = st_trace st.
Proof.
  intros Hmain Hpump Heof.
  exists (setPump st (PErrSend io_EOF)). split.
  - unfold exec. destruct (st_main st); rewrite Hpump;
      rewrite decide_True by exact Heof; reflexivity.
  - intros sched st' Hrun.
    destruct (run_blocked s c sched (setPump st (PErrSend io_EOF)) st' e io_EOF
                Hmain eq_refl Hrun) as (Hm & _ & Ht).
    split; [exact Hm|exact Ht].
Qed.

(** C1 at a failing input: the request (Arith.Count, seq 5) on a connection
    whose peer has hung up. The handler sends its value and returns nil; the
    pumper's [select] then takes [<-c.eof]. From there on no schedule writes
    a terminal frame or closes [c.done]. *)
Theorem call_stream_can_block_forever :
  exists st,
    run exService exCall [CStart; CData; CReturn; CEof]
      (initState exCall NewServer idleCodec {[ eof exCall ]}) = Some st /\
    st_main st = MWait None /\
    st_pump st = PErrSend io_EOF /\
    forall sched st', run exService exCall sched st = Some st' ->
      st_main st' = MWait None /\
      terminalFrames (st_trace st') = [] /\
      closesOf (done exCall) (st_trace st') = 0%nat.
Proof.
  eexists. split; [reflexivity|]. split; [reflexivity|]. split; [reflexivity|].
  intros sched st' Hrun.
  eapply run_blocked in Hrun; [|reflexivity|reflexivity].
  destruct Hrun as (Hm & _ & Ht).
  rewrite Hm, Ht. repeat split; reflexivity.
Qed.

(** What the terminal frame of a stream can say: since [streamErr] is never
    anything but nil, its error is the handler's error string, or "EOS" if
    the handler returned nil; no failure of a write ever shows in it. *)
Lemma stream_terminal_never_write_error (s : service) (c : call) (server : Server)
    (codec : Codec) (closed : gset chan) (sched : list choice) (st : cstate)
    (f : frame) (werr : option string) :
  stream (mtype c) = true ->
  run s c sched (initState c server codec closed) = Some st ->
  List.In (EvWrite f werr) (st_trace st) ->
  f_last f = true ->
  exists e,
    st_main st = MDone /\
    returnsOf (st_trace st) = [e] /\
    Error (f_resp f) = match e with Some m => m | None => "EOS" end.
Proof.
  intros Hstream Hrun Hin Hlast.
  pose proof (run_inv s c _ _ _ (init_inv c server codec closed) Hrun) as Hinv.
  pose proof (run_streamErr s c sched (initState c server codec closed) st
                eq_refl Hrun) as Hnil.
  pose proof (terminalFrames_In _ _ _ Hin Hlast) as Hterm.
  unfold callInv in Hinv.
  destruct (st_main st).
  - destruct Hinv as (_ & Ht & _). rewrite Ht in Hterm. destruct Hterm.
  - destruct Hinv as (_ & Ht & _). rewrite Ht in Hterm. destruct Hterm.
  - destruct Hinv as (_ & _ & Ht & _). rewrite Ht in Hterm. destruct Hterm.
  - destruct Hinv as (pre & f0 & w0 & e & Htr & Hret & [Hq _] & _ & _ & _ & Herr).
    exists e. split; [reflexivity|].
    rewrite Htr in Hin |- *. split.
    + rewrite returnsOf_app, Hret. reflexivity.
    + apply in_app_or in Hin as [Hpre|Hend].
      * apply terminalFrames_In in Hpre; [|exact Hlast].
        rewrite Hq in Hpre. destruct Hpre.
      * simpl in Hend. destruct Hend as [[= <- _]|[[=]|[]]].
        rewrite Herr, Hstream, Hnil. reflexivity.
Qed.

(** C2 at a failing input: the call of [exCount] with a context of the
    declared type, on a codec that fails the write of the streamed value.
    The handler returns nil and the pumper has seen a write fail, so the
    terminal frame should carry that write error; it carries "EOS", because
    [streamErr] is still nil when the error of the terminal frame is chosen. *)
Theorem stream_terminal_says_EOS_after_failed_write :
  exists st,
    run exService exTypedCall [CStart; CData; CReturn; CFuncDone; CFinish]
      (initState exTypedCall NewServer brokenCodec ∅) = Some st /\
    List.In (EvWrite (dataFrame exTypedCall "1") (Some "broken pipe")) (st_trace st) /\
    returnsOf (st_trace st) = [None] /\
    st_streamErr st = None /\
    terminalFrames (st_trace st) =
      [ {| f_resp := {| ServiceMethod := "Arith.Count"; Seq := 5; Error := "EOS" |};
           f_body := invalidRequest; f_last := true |} ].
Proof.
  eexists. split; [reflexivity|].
  split; [simpl; right; left; reflexivity|].
  split; [reflexivity|]. split; reflexivity.
Qed.

(** C4 at a failing input: the codec fails the write of the one value that
    [exCount] streams. The failure shows in the trace, but [sendResponse]
    returns nil all the same: [streamErr] stays nil, nothing is put on
    [errChan], the pumper goes back to its [select], and the terminal frame
    says "EOS". *)
Theorem stream_write_error_is_dropped :
  exists st,
    run exService exCall [CStart; CData; CReturn; CFuncDone; CFinish]
      (initState exCall NewServer brokenCodec ∅) = Some st /\
    st_streamErr st = None /\
    st_trace st =
      [EvCall [VRcvr tArith; VNew typeOfString 0; VElem (VNew tInt 1); VStream];
       EvWrite {| f_resp := {| ServiceMethod := "Arith.Count"; Seq := 5; Error := "" |};
                  f_body := BData "1"; f_last := false |} (Some "broken pipe");
       EvReturn None;
       EvWrite {| f_resp := {| ServiceMethod := "Arith.Count"; Seq := 5;
                               Error := "EOS" |};
                  f_body := BInvalidRequest; f_last := true |} None;
       EvClose 1%nat].
Proof.
  eexists. split; [reflexivity|]. split; reflexivity.
Qed.

(** The same for every call and every schedule: [streamErr] is nil in every
    reachable state, whatever the codec answers. *)
Lemma streamErr_always_nil (s : service) (c : call) (server : Server)
    (codec : Codec) (closed : gset chan) (sched : list choice) (st : cstate) :
  run s c sched (initState c server codec closed) = Some st ->
  st_streamErr st = None.
Proof. apply run_streamErr. reflexivity. Qed.

(** ** The dispatcher *)


Lemma sendResponse_input server req reply codec errmsg last :
  input (s_codec (sendResponse server req reply codec errmsg last)) = input codec.
Proof.
  unfold sendResponse, getResponse, WriteResponse.
  destruct (freeResp server); destruct (negb (String.eqb errmsg ""));
    destruct (writeErrs codec); reflexivity.
Qed.

Lemma readRequestHeader_fails server codec e :
  snd (ReadRequestHeader codec) = inl e ->
  let h := readRequestHeader server codec in
  h_req h = None /\ h_keepReading h = false /\
  exists err, h_err h = Some err /\ err <> ErrCloseStream.
Proof.
  unfold readRequestHeader. destruct (getRequest server) as [server' r0].
  destruct (ReadRequestHeader codec) as [codec' [e'|req]]; simpl; [|discriminate].
  intros [= ->]. repeat split. destruct e; eexists; split; eauto; discriminate.
Qed.

Lemma readRequestHeader_reads server codec req :
  snd (ReadRequestHeader codec) = inr req ->
  let h := readRequestHeader server codec in
  h_req h = Some req /\ h_keepReading h = true /\ h_codec h = codec /\
  (req_ServiceMethod req = "CloseStream" -> h_err h = Some ErrCloseStream) /\
  (h_err h = None -> is_Some (h_service h) /\ is_Some (h_mtype h)).
Proof.
  unfold readRequestHeader. destruct (getRequest server) as [server' r0].
  unfold ReadRequestHeader.
  destruct (input codec) as [|w rest] eqn:Hin; simpl; [discriminate|].
  destruct (wr_header w) as [e'|req'] eqn:Hw; simpl; [discriminate|].
  intros [= ->].
  destruct (String.eqb (req_ServiceMethod req) "CloseStream") eqn:Hcs; simpl.
  { repeat split; auto; discriminate. }
  apply String.eqb_neq in Hcs.
  destruct (splitDot (req_ServiceMethod req)) as [|a [|b [|x xs]]]; simpl;
    try (repeat split; auto; congruence).
  destruct (serviceMap server' !! a) as [sv|]; simpl;
    try (repeat split; auto; congruence).
  destruct (methods sv !! b) as [mt|]; simpl;
    repeat split; eauto; congruence.
Qed.

Lemma readRequest_hdr server codec a r :
  readRequest server codec a = Some r -> r_hdr r = readRequestHeader server codec.
Proof.
  unfold readRequest.
  destruct (h_err (readRequestHeader server codec)) as [err|].
  - destruct (negb (h_keepReading _)); [intros [= <-]; reflexivity|].
    destruct (ReadRequestBody _). intros [= <-]; reflexivity.
  - destruct (h_mtype (readRequestHeader server codec)) as [mt|]; [|discriminate].
    destruct (ArgType mt); simpl;
      destruct (ReadRequestBody _) as [codec' [e|]];
      try (intros [= <-]; reflexivity);
      destruct (stream mt); try (intros [= <-]; reflexivity);
      destruct (Elem (ReplyType mt)); try discriminate; intros [= <-]; reflexivity.
Qed.

(** What [readRequest] does with the body when it reports an error for a
    header it has: one read of the body, and nothing else. *)
Lemma readRequest_error_body server codec a r err :
  readRequest server codec a = Some r ->
  r_err r = Some err ->
  h_keepReading (readRequestHeader server codec) = true ->
  h_codec (readRequestHeader server codec) = codec ->
  exists sink, r_bodyReads r = [sink] /\
               r_codec r = fst (ReadRequestBody codec) /\
               (h_err (readRequestHeader server codec) = Some err -> sink = None).
Proof.
  unfold readRequest. intros Hrd Herr Hkeep Hcodec.
  rewrite Hkeep, Hcodec in Hrd.
  destruct (h_err (readRequestHeader server codec)) as [err0|]; simpl in Hrd.
  - destruct (ReadRequestBody codec) as [codec' b]. injection Hrd as <-.
    eexists; repeat split.
  - destruct (h_mtype (readRequestHeader server codec)) as [mt|]; [|discriminate].
    destruct (ArgType mt); simpl in Hrd;
      destruct (ReadRequestBody codec) as [codec' [e|]];
      try (injection Hrd as <-; eexists; repeat split; discriminate);
      destruct (stream mt); try (injection Hrd as <-; discriminate Herr);
      destruct (Elem (ReplyType mt)); try discriminate;
      injection Hrd as <-; discriminate Herr.
Qed.

(** With a header in hand [readRequest] reads the body exactly once. *)
Lemma readRequest_body server codec a r :
  readRequest server codec a = Some r ->
  h_keepReading (readRequestHeader server codec) = true ->
  h_codec (readRequestHeader server codec) = codec ->
  r_codec r = fst (ReadRequestBody codec) /\ exists sink, r_bodyReads r = [sink].
Proof.
  unfold readRequest. intros Hrd Hkeep Hcodec.
  rewrite Hkeep, Hcodec in Hrd.
  destruct (h_err (readRequestHeader server codec)) as [err0|]; simpl in Hrd.
  - destruct (ReadRequestBody codec) as [codec' b]. injection Hrd as <-.
    split; [reflexivity|eexists; reflexivity].
  - destruct (h_mtype (readRequestHeader server codec)) as [mt|]; [|discriminate].
    destruct (ArgType mt); simpl in Hrd;
      destruct (ReadRequestBody codec) as [codec' [e|]];
      try (injection Hrd as <-; split; [reflexivity|eexists; reflexivity]);
      destruct (stream mt);
      try (injection Hrd as <-; split; [reflexivity|eexists; reflexivity]);
      destruct (Elem (ReplyType mt)); try discriminate;
      injection Hrd as <-; split; try reflexivity; eexists; reflexivity.
Qed.

Lemma readRequest_header_fails server codec a e :
  snd (ReadRequestHeader codec) = inl e ->
  exists r err,
    readRequest server codec a = Some r /\
    r_hdr r = readRequestHeader server codec /\
    r_err r = Some err /\ err <> ErrCloseStream /\ r_bodyReads r = [].
Proof.
  intros Hfail.
  destruct (readRequestHeader_fails server codec e Hfail)
    as (Hreq & Hkeep & err & Herr & Hne).
  unfold readRequest. rewrite Herr, Hkeep. simpl.
  eexists _, err. repeat split; auto.
Qed.

Lemma serveStep_header_fails contextVal eof cn e :
  snd (ReadRequestHeader (cn_codec cn)) = inl e ->
  exists cn', serveStep contextVal eof cn = (cn', Break) /\
              cn_events cn' = cn_events cn /\
              cn_stopChans cn' = cn_stopChans cn.
Proof.
  intros Hfail.
  destruct (readRequest_header_fails (cn_server cn) (cn_codec cn) (cn_nextAddr cn) e Hfail)
    as (r & err & Hrd & Hhdr & Herr & Hne & Hreads).
  destruct (readRequestHeader_fails (cn_server cn) (cn_codec cn) e Hfail)
    as (_ & Hkeep & _).
  unfold serveStep. rewrite Hrd, Herr, Hhdr, Hkeep, Hreads. simpl.
  destruct err; try congruence; eexists; repeat split; simpl; apply app_nil_r.
Qed.

Lemma serveStep_error_after_header contextVal eof cn req r err :
  snd (ReadRequestHeader (cn_codec cn)) = inr req ->
  readRequest (cn_server cn) (cn_codec cn) (cn_nextAddr cn) = Some r ->
  r_err r = Some err -> err <> ErrCloseStream ->
  exists cn' f werr sink,
    serveStep contextVal eof cn = (cn', Continue) /\
    cn_events cn' = (cn_events cn ++ [DReadBody sink; DWrite f werr])%list /\
    f_last f = true /\
    Seq (f_resp f) = req_Seq req /\
    ServiceMethod (f_resp f) = req_ServiceMethod req /\
    Error (f_resp f) = errorString err /\
    f_body f = invalidRequest.
Proof.
  intros Hhead Hrd Herr Hne.
  destruct (readRequestHeader_reads (cn_server cn) (cn_codec cn) req Hhead)
    as (Hreq & Hkeep & Hcodec & _ & _).
  pose proof (readRequest_hdr _ _ _ _ Hrd) as Hhdr.
  destruct (readRequest_body _ _ _ _ Hrd Hkeep Hcodec) as (_ & sink & Hreads).
  unfold serveStep. rewrite Hrd, Herr, Hhdr, Hkeep, Hreq, Hreads. simpl.
  match goal with
  | |- context [sendResponse ?sv ?rq ?rp ?cd ?em ?l] =>
      destruct (sendResponse_header sv rq rp cd em l) as (Hsm & Hseq & He & Hl & Hb)
  end.
  destruct err; try congruence; simpl in *;
    eexists _, _, _, sink; (split; [reflexivity|]); simpl;
    rewrite <- app_assoc; simpl; repeat split; auto;
    rewrite Hb; match goal with |- (if ?b then _ else _) = _ => destruct b end;
    reflexivity.
Qed.

(** C5, as the code has it: a failure of the header read, of whatever kind,
    leaves no header and ends the serving loop without a response: [eof] is
    closed and the codec is closed. Only an error found after the header was
    read (ill-formed service_method, unknown service or method, body that
    does not decode) is answered, with one terminal error response that
    echoes the header, and the loop goes on to the next request. *)
Theorem serveStep_on_error (contextVal : Value) (eof : chan) (cn : conn) :
  (forall e, snd (ReadRequestHeader (cn_codec cn)) = inl e ->
     exists cn',
       serveStep contextVal eof cn = (cn', Break) /\
       cn_events cn' = cn_events cn /\
       forall fuel, serveLoop (S fuel) contextVal eof cn = Some (hangUp eof cn', Break)) /\
  (forall req r err,
     snd (ReadRequestHeader (cn_codec cn)) = inr req ->
     readRequest (cn_server cn) (cn_codec cn) (cn_nextAddr cn) = Some r ->
     r_err r = Some err -> err <> ErrCloseStream ->
     exists cn' f werr sink,
       serveStep contextVal eof cn = (cn', Continue) /\
       cn_events cn' = (cn_events cn ++ [DReadBody sink; DWrite f werr])%list /\
       f_last f = true /\
       Seq (f_resp f) = req_Seq req /\
       ServiceMethod (f_resp f) = req_ServiceMethod req /\
       Error (f_resp f) = errorString err /\
       f_body f = invalidRequest).
Proof.
  split.
  - intros e Hfail.
    destruct (serveStep_header_fails contextVal eof cn e Hfail) as (cn' & Hstep & Hev & _).
    exists cn'. repeat split; auto.
    intros fuel. simpl. rewrite Hstep. reflexivity.
  - intros req r err. apply serveStep_error_after_header.
Qed.

Lemma serveStep_on_error_witness :
  exists cn' f werr sink,
    serveStep VInvalid 0%nat (freshConn exServer chattyCodec) = (cn', Continue) /\
    cn_events cn' = [DReadBody sink; DWrite f werr] /\
    f_last f = true /\
    Seq (f_resp f) = 9 /\
    ServiceMethod (f_resp f) = "NotDotted" /\
    Error (f_resp f) = "rpc: service/method request ill-formed: NotDotted" /\
    f_body f = invalidRequest.
Proof.
  eapply (proj2 (serveStep_on_error VInvalid 0%nat (freshConn exServer chattyCodec))
            {| req_ServiceMethod := "NotDotted"; req_Seq := 9 |} _
            (ErrNew "rpc: service/method request ill-formed: NotDotted")).
  - reflexivity.
  - reflexivity.
  - reflexivity.
  - discriminate.
Defined.

(** C5 as stated fails: the codec cannot decode the first header (an error
    that is not EOF), a well-formed request follows; the loop breaks at once,
    nothing is answered, the codec is closed and the request behind is never
    read. *)
Lemma header_decode_error_ends_loop :
  snd (ReadRequestHeader garbledCodec) = inl (OtherErr "gob: bad data") /\
  snd (serveStep VInvalid 0%nat (freshConn exServer garbledCodec)) = Break /\
  exists cn,
    ServeCodec exServer garbledCodec 0%nat 0%nat = Some (cn, Break) /\
    cn_events cn = [DClose 0%nat; DCodecClose] /\
    codecClosed (cn_codec cn) = true /\
    input (cn_codec cn) =
      [ {| wr_header := inr {| req_ServiceMethod := "Arith.Multiply"; req_Seq := 8 |};
           wr_body := None |} ].
Proof.
  split; [reflexivity|]. split; [reflexivity|].
  eexists. split; [reflexivity|]. repeat split.
Qed.

Lemma ReadRequestBody_input codec :
  input (fst (ReadRequestBody codec)) = tail (input codec).
Proof. unfold ReadRequestBody. destruct (input codec) eqn:E; simpl; auto. Qed.

(** C7: a request whose service_method is "CloseStream" has its body read
    into the nil sink, gets no response and reaches no service: the reader
    only starts the cancellation for its seq and goes on. The cancellation
    removes the seq from the live-stream map and closes its stop channel if
    there is an entry; without an entry nothing is closed and the map is as
    it was. *)
Theorem closeStream_request (contextVal : Value) (eof : chan) (cn : conn)
    (req : Request) :
  snd (ReadRequestHeader (cn_codec cn)) = inr req ->
  req_ServiceMethod req = "CloseStream" ->
  (exists cn',
     serveStep contextVal eof cn = (cn', Continue) /\
     cn_events cn' =
       (cn_events cn ++ [DReadBody None; DGo (TCancel (req_Seq req))])%list /\
     input (cn_codec cn') = tail (input (cn_codec cn)) /\
     cn_stopChans cn' = cn_stopChans cn /\
     cn_closed cn' = cn_closed cn) /\
  (forall cn0,
     let cn1 := cancelStream (req_Seq req) cn0 in
     cn_stopChans cn1 = delete (req_Seq req) (cn_stopChans cn0) /\
     match cn_stopChans cn0 !! req_Seq req with
     | Some stop =>
         cn_closed cn1 = {[ stop ]} ∪ cn_closed cn0 /\
         cn_events cn1 = (cn_events cn0 ++ [DClose stop])%list
     | None =>
         cn_closed cn1 = cn_closed cn0 /\
         cn_events cn1 = cn_events cn0 /\
         cn_stopChans cn1 = cn_stopChans cn0
     end).
Proof.
  intros Hhead Hcs. split.
  - destruct (readRequestHeader_reads (cn_server cn) (cn_codec cn) req Hhead)
      as (Hreq & Hkeep & Hcodec & Herr & _).
    specialize (Herr Hcs).
    unfold serveStep, readRequest. rewrite Herr, Hkeep. simpl.
    rewrite Hcodec.
    destruct (ReadRequestBody (cn_codec cn)) as [codec' b] eqn:Hbody. simpl.
    rewrite Hreq. eexists. split; [reflexivity|]. simpl.
    rewrite <- app_assoc. repeat split.
    change codec' with (fst (codec', b)). rewrite <- Hbody.
    apply ReadRequestBody_input.
  - intros cn0. unfold cancelStream, maybeLog, setStops. simpl.
    destruct (cn_stopChans cn0 !! req_Seq req) as [stop|] eqn:Hstop;
      destruct (cn_requestLogMap cn0 !! req_Seq req); simpl;
      rewrite ?app_nil_r; repeat split; auto; apply delete_id; exact Hstop.
Qed.

Lemma closeStream_request_witness :
  exists cn',
    serveStep VInvalid 0%nat
      (freshConn exServer
         {| input := tail (input chattyCodec); writeErrs := [];
            codecClosed := false |}) = (cn', Continue) /\
    cn_events cn' = [DReadBody None; DGo (TCancel 5)].
Proof.
  destruct (closeStream_request VInvalid 0%nat
              (freshConn exServer
                 {| input := tail (input chattyCodec); writeErrs := [];
                    codecClosed := false |})
              {| req_ServiceMethod := "CloseStream"; req_Seq := 5 |}
              eq_refl eq_refl) as [(cn' & Hstep & Hev & _) _].
  exists cn'. split; [exact Hstep|exact Hev].
Defined.

Lemma callsCarry_app contextVal eofChan evs1 evs2 :
  callsCarry contextVal eofChan evs1 -> callsCarry contextVal eofChan evs2 ->
  callsCarry contextVal eofChan (evs1 ++ evs2).
Proof.
  intros H1 H2 s c Hin. apply in_app_or in Hin as [Hin|Hin]; eauto.
Qed.

Lemma callsCarry_reads contextVal eofChan sinks :
  callsCarry contextVal eofChan (map DReadBody sinks).
Proof.
  intros s c Hin. apply in_map_iff in Hin as (x & [=] & _).
Qed.

Lemma serveStep_callsCarry contextVal eofChan cn cn' ctl :
  callsCarry contextVal eofChan (cn_events cn) ->
  serveStep contextVal eofChan cn = (cn', ctl) ->
  callsCarry contextVal eofChan (cn_events cn').
Proof.
  intros Hcarry. unfold serveStep.
  destruct (readRequest _ _ _) as [r|]; [|intros [= <- _]; exact Hcarry].
  assert (Hcn1 : callsCarry contextVal eofChan
                   (cn_events cn ++ map DReadBody (r_bodyReads r))).
  { apply callsCarry_app; [exact Hcarry|apply callsCarry_reads]. }
  destruct (r_err r) as [err|].
  - destruct err;
      try (destruct (negb (h_keepReading (r_hdr r))); [intros [= <- _]; exact Hcn1|]);
      destruct (h_req (r_hdr r)) as [req|]; intros [= <- _]; simpl; try exact Hcn1;
      (apply callsCarry_app; [exact Hcn1|]);
      intros s c [[=]|[]].
  - destruct (h_req (r_hdr r)) as [req|]; [|intros [= <- _]; exact Hcn1].
    destruct (h_service (r_hdr r)) as [sv|]; [|intros [= <- _]; exact Hcn1].
    destruct (h_mtype (r_hdr r)) as [mt|]; [|intros [= <- _]; exact Hcn1].
    intros [= <- _]. simpl.
    apply callsCarry_app; [exact Hcn1|].
    intros s c [[=]|[[= <- <-]|[]]]. split; reflexivity.
Qed.

Lemma serveLoop_callsCarry fuel contextVal eofChan cn cn' ctl :
  callsCarry contextVal eofChan (cn_events cn) ->
  serveLoop fuel contextVal eofChan cn = Some (cn', ctl) ->
  callsCarry contextVal eofChan (cn_events cn').
Proof.
  revert cn. induction fuel as [|fuel IH]; intros cn Hcarry; simpl; [discriminate|].
  destruct (serveStep contextVal eofChan cn) as [cn1 ctl1] eqn:Hstep.
  pose proof (serveStep_callsCarry _ _ _ _ _ Hcarry Hstep) as Hcarry1.
  destruct ctl1.
  - apply IH. exact Hcarry1.
  - intros [= <- _]. simpl. apply callsCarry_app; [exact Hcarry1|].
    intros s c [[=]|[[=]|[]]].
  - intros [= <- _]. exact Hcarry1.
Qed.





(** * Further properties of the registry *)

Section InstallFacts.

Variable upper : Z -> bool.

Let install := fun (acc : gmap string methodType) (m : Method) =>
  match prepareMethod upper m with
  | Some mt => <[method_Name m := mt]> acc
  | None => acc
  end.

Lemma foldl_install_other (ms : list Method) (acc : gmap string methodType) (n : string) :
  n ∉ map method_Name ms -> foldl install acc ms !! n = acc !! n.
Proof.
  revert acc. induction ms as [|m ms IH]; intros acc Hn; simpl; [reflexivity|].
  simpl in Hn. apply not_elem_of_cons in Hn as [Hne Hn].
  rewrite IH by exact Hn. unfold install.
  destruct (prepareMethod upper m); [|reflexivity].
  apply lookup_insert_ne. congruence.
Qed.

Lemma foldl_install_origin (ms : list Method) (acc : gmap string methodType)
    (n : string) (mt : methodType) :
  foldl install acc ms !! n = Some mt ->
  acc !! n = Some mt \/
  exists m, List.In m ms /\ method_Name m = n /\ prepareMethod upper m = Some mt.
Proof.
  revert acc. induction ms as [|m ms IH]; intros acc; simpl; [auto|].
  intros H. apply IH in H as [H|(m' & Hin & Hn & Hp)]; [|right; eauto].
  unfold install in H. destruct (prepareMethod upper m) as [mt'|] eqn:E; [|auto].
  destruct (decide (method_Name m = n)) as [Heq|Hne].
  - subst n. rewrite lookup_insert_eq in H. injection H as <-. right; eauto.
  - rewrite lookup_insert_ne in H by exact Hne. auto.
Qed.

Lemma foldl_install_unique (ms : list Method) (acc : gmap string methodType) (m : Method) :
  NoDup (map method_Name ms) -> List.In m ms ->
  foldl install acc ms !! method_Name m =
    match prepareMethod upper m with
    | Some mt => Some mt
    | None => acc !! method_Name m
    end.
Proof.
  revert acc. induction ms as [|m0 ms IH]; intros acc Hnd Hin; [destruct Hin|].
  simpl in Hnd. apply NoDup_cons in Hnd as [Hfresh Hnd].
  destruct Hin as [->|Hin]; simpl.
  - rewrite foldl_install_other by exact Hfresh. unfold install.
    destruct (prepareMethod upper m); [apply lookup_insert_eq|reflexivity].
  - rewrite (IH _ Hnd Hin).
    destruct (prepareMethod upper m) as [mt|]; [reflexivity|].
    unfold install. destruct (prepareMethod upper m0); [|reflexivity].
    apply lookup_insert_ne. intros Heq. apply Hfresh.
    rewrite Heq. apply list_elem_of_fmap. exists m. split; [reflexivity|].
    apply list_elem_of_In. exact Hin.
Qed.

End InstallFacts.

(** X1: [register] never changes or removes an entry the registry already
    has, whatever it is asked to register and however it ends. *)
Theorem register_keeps_entries (upper : Z -> bool) (server : Server)
    (rcvr : Receiver) (name : string) (useName : bool) (sname' : string)
    (sv : service) :
  serviceMap server !! sname' = Some sv ->
  serviceMap (fst (register upper server rcvr name useName)) !! sname' = Some sv.
Proof.
  intros Hsv. unfold register.
  set (sname := if useName then name else Name (indirect (rcvr_typ rcvr))).
  destruct (String.eqb sname ""); [exact Hsv|].
  destruct (negb (isExported upper sname) && negb useName); [exact Hsv|].
  destruct (serviceMap server !! sname) as [s0|] eqn:Hdup; [exact Hsv|].
  destruct (decide (size (installMethods upper (rcvr_methods rcvr)) = 0%nat));
    [exact Hsv|].
  simpl. rewrite lookup_insert_ne; [exact Hsv|]. congruence.
Qed.

Lemma register_keeps_entries_witness :
  exists sv,
    serviceMap (fst (RegisterName noneAboveLatin1 exServer "Arith" exArith)) !! "Arith"
      = Some sv /\
    serviceMap (fst (RegisterName noneAboveLatin1 exServer "Other" exArith)) !! "Arith"
      = Some sv.
Proof.
  exists exService. split.
  - apply (register_keeps_entries noneAboveLatin1 exServer exArith "Arith" true).
    vm_compute. reflexivity.
  - apply (register_keeps_entries noneAboveLatin1 exServer exArith "Other" true).
    vm_compute. reflexivity.
Defined.

(** X2: a registry built by [register] holds only descriptors the validator
    made: if every descriptor of the server is the validator's result for a
    method of the name it is stored under, the same is true after any
    registration. The empty registry of [NewServer] is such a server. *)
Theorem register_validated (upper : Z -> bool) (server : Server)
    (rcvr : Receiver) (name : string) (useName : bool) :
  validated upper NewServer /\
  (validated upper server ->
   validated upper (fst (register upper server rcvr name useName))).
Proof.
  split.
  - intros sname sv mname mt H. simpl in H. rewrite lookup_empty in H. discriminate.
  - intros Hval. unfold register.
    set (sname := if useName then name else Name (indirect (rcvr_typ rcvr))).
    destruct (String.eqb sname ""); [exact Hval|].
    destruct (negb (isExported upper sname) && negb useName); [exact Hval|].
    destruct (serviceMap server !! sname) as [s0|] eqn:Hdup; [exact Hval|].
    destruct (decide (size (installMethods upper (rcvr_methods rcvr)) = 0%nat));
      [exact Hval|].
    intros sname' sv mname mt. simpl.
    destruct (decide (sname = sname')) as [<-|Hne].
    + rewrite lookup_insert_eq. intros [= <-]. simpl. unfold installMethods.
      intros Hm. apply foldl_install_origin in Hm as [Hm|(m & _ & Hn & Hp)].
      * rewrite lookup_empty in Hm. discriminate.
      * eauto.
    + rewrite lookup_insert_ne by exact Hne. apply Hval.
Qed.

Lemma register_validated_witness :
  validated noneAboveLatin1 (fst (Register noneAboveLatin1 NewServer exArith)).
Proof.
  apply (proj2 (register_validated noneAboveLatin1 NewServer exArith "" false)).
  exact (proj1 (register_validated noneAboveLatin1 NewServer exArith "" false)).
Defined.

(** X3: after a successful registration of a receiver whose methods have
    distinct names, each of its methods is found under the service name and
    its own name exactly if the validator accepts it, and then with the
    validator's descriptor: looking the method up gives what [prepareMethod]
    gives. *)
Theorem registered_methods_callable (upper : Z -> bool) (server : Server)
    (rcvr : Receiver) (name : string) (useName : bool) (m : Method) :
  NoDup (map method_Name (rcvr_methods rcvr)) ->
  List.In m (rcvr_methods rcvr) ->
  snd (register upper server rcvr name useName) = RegOk ->
  exists sv,
    serviceMap (fst (register upper server rcvr name useName))
      !! serviceName rcvr name useName = Some sv /\
    methods sv !! method_Name m = prepareMethod upper m.
Proof.
  intros Hnd Hin. unfold register, serviceName.
  set (sname := if useName then name else Name (indirect (rcvr_typ rcvr))).
  destruct (String.eqb sname ""); [discriminate|].
  destruct (negb (isExported upper sname) && negb useName); [discriminate|].
  destruct (serviceMap server !! sname) as [s0|] eqn:Hdup; [discriminate|].
  destruct (decide (size (installMethods upper (rcvr_methods rcvr)) = 0%nat));
    [discriminate|].
  intros _. simpl. rewrite lookup_insert_eq. eexists. split; [reflexivity|].
  simpl. unfold installMethods.
  rewrite (foldl_install_unique upper _ ∅ m Hnd Hin).
  destruct (prepareMethod upper m); [reflexivity|apply lookup_empty].
Qed.

Lemma registered_methods_callable_witness :
  exists sv,
    serviceMap (fst (Register noneAboveLatin1 NewServer exArith)) !! "Arith" = Some sv /\
    methods sv !! "Count" = prepareMethod noneAboveLatin1 exCount.
Proof.
  apply (registered_methods_callable noneAboveLatin1 NewServer exArith "" false exCount).
  - simpl. apply NoDup_cons. split.
    + intros Hin. apply list_elem_of_In in Hin. simpl in Hin.
      destruct Hin as [Heq|[]]. discriminate Heq.
    + apply NoDup_singleton.
  - simpl. right. left. reflexivity.
  - reflexivity.
Defined.

(** * Further properties of the dispatcher *)

Lemma splitDot_length (s : string) : length (splitDot s) = S (dots s).
Proof.
  induction s as [|a rest IH]; simpl; [reflexivity|].
  destruct (Ascii.eqb a "."%char); simpl; [rewrite IH; reflexivity|].
  destruct (splitDot rest) as [|x xs]; simpl in *; [discriminate|exact IH].
Qed.

Lemma getRequest_serviceMap server :
  serviceMap (fst (getRequest server)) = serviceMap server.
Proof. unfold getRequest. destruct (freeReq server); reflexivity. Qed.

(** X4: routing of a request whose header was read. It reaches a method
    exactly if its service_method is not the reserved CloseStream, has
    exactly one dot, the part before the dot names a registered service and
    the part after it a method of that service; the service and descriptor
    handed on are those two. With no dot or more than one (and not
    CloseStream) the answer is the ill-formed error. *)
Theorem readRequestHeader_routes (server : Server) (codec : Codec) (req : Request) :
  snd (ReadRequestHeader codec) = inr req ->
  let h := readRequestHeader server codec in
  let sm := req_ServiceMethod req in
  (h_err h = None <->
   sm <> "CloseStream" /\ dots sm = 1%nat /\
   exists sname mname sv mt,
     splitDot sm = [sname; mname] /\
     serviceMap server !! sname = Some sv /\
     methods sv !! mname = Some mt /\
     h_service h = Some sv /\ h_mtype h = Some mt) /\
  (sm <> "CloseStream" -> dots sm <> 1%nat ->
   h_err h = Some (ErrNew ("rpc: service/method request ill-formed: " ++ sm))).
Proof.
  intros Hhead. simpl.
  pose proof (getRequest_serviceMap server) as Hmap.
  pose proof (splitDot_length (req_ServiceMethod req)) as Hlen.
  unfold readRequestHeader. destruct (getRequest server) as [server' r0].
  simpl in Hmap. unfold ReadRequestHeader in *.
  destruct (input codec) as [|w rest]; simpl in *; [discriminate|].
  destruct (wr_header w) as [e'|req']; simpl in *; [discriminate|].
  injection Hhead as ->.
  destruct (String.eqb (req_ServiceMethod req) "CloseStream") eqn:Hcs; simpl.
  { apply String.eqb_eq in Hcs. split; [split|]; [discriminate| |congruence].
    intros [Hne _]. congruence. }
  apply String.eqb_neq in Hcs.
  destruct (splitDot (req_ServiceMethod req)) as [|a [|b [|x xs]]] eqn:Hsplit;
    simpl in *.
  - discriminate.
  - split; [split; [discriminate|]|reflexivity].
    intros (_ & Hd & _). rewrite Hd in Hlen. discriminate.
  - rewrite Hmap. split; [|intros _ Hd; exfalso; apply Hd; congruence].
    destruct (serviceMap server !! a) as [sv|] eqn:Hsv; simpl.
    + destruct (methods sv !! b) as [mt|] eqn:Hmt; simpl.
      * split; [|reflexivity]. intros _. split; [exact Hcs|].
        split; [congruence|]. exists a, b, sv, mt. auto.
      * split; [discriminate|].
        intros (_ & _ & a' & b' & sv' & mt' & [= <- <-] & Hsv' & Hmt' & _).
        congruence.
    + split; [discriminate|].
      intros (_ & _ & a' & b' & sv' & mt' & [= <- <-] & Hsv' & _). congruence.
  - split; [split; [discriminate|]|reflexivity].
    intros (_ & Hd & _). rewrite Hd in Hlen. discriminate.
Qed.

Lemma readRequestHeader_routes_witness :
  h_err (readRequestHeader exServer
           {| input := [ {| wr_header := inr {| req_ServiceMethod := "a.b.c";
                                                req_Seq := 1 |};
                            wr_body := None |} ];
              writeErrs := []; codecClosed := false |})
  = Some (ErrNew "rpc: service/method request ill-formed: a.b.c").
Proof.
  apply (proj2 (readRequestHeader_routes exServer
                  {| input := [ {| wr_header := inr {| req_ServiceMethod := "a.b.c";
                                                       req_Seq := 1 |};
                                   wr_body := None |} ];
                     writeErrs := []; codecClosed := false |}
                  {| req_ServiceMethod := "a.b.c"; req_Seq := 1 |} eq_refl)).
  - discriminate.
  - discriminate.
Defined.

Lemma validated_ext upper server server' :
  serviceMap server' = serviceMap server ->
  validated upper server -> validated upper server'.
Proof. unfold validated. intros ->. auto. Qed.

Lemma readRequestHeader_serviceMap server codec :
  serviceMap (h_server (readRequestHeader server codec)) = serviceMap server.
Proof.
  unfold readRequestHeader. pose proof (getRequest_serviceMap server) as Hmap.
  destruct (getRequest server) as [server' r0]. simpl in Hmap.
  destruct (ReadRequestHeader codec) as [codec' [e|req]]; simpl; [exact Hmap|].
  destruct (String.eqb _ _); simpl; [exact Hmap|].
  destruct (splitDot _) as [|a [|b [|x xs]]]; simpl; try exact Hmap.
  destruct (serviceMap server' !! a) as [sv|]; simpl; [|exact Hmap].
  destruct (methods sv !! b); exact Hmap.
Qed.

Lemma sendResponse_serviceMap server req reply codec errmsg last :
  serviceMap (s_server (sendResponse server req reply codec errmsg last))
  = serviceMap server.
Proof.
  unfold sendResponse, getResponse.
  destruct (freeResp server); destruct (negb (String.eqb errmsg ""));
    destruct (WriteResponse codec _); reflexivity.
Qed.

(** A descriptor the reader hands on is one of the registry. *)
Lemma readRequestHeader_registered server codec mt :
  h_mtype (readRequestHeader server codec) = Some mt ->
  exists sname sv mname,
    serviceMap server !! sname = Some sv /\ methods sv !! mname = Some mt.
Proof.
  unfold readRequestHeader. pose proof (getRequest_serviceMap server) as Hmap.
  destruct (getRequest server) as [server' r0]. simpl in Hmap.
  destruct (ReadRequestHeader codec) as [codec' [e|req]]; simpl; [discriminate|].
  destruct (String.eqb _ _); simpl; [discriminate|].
  destruct (splitDot _) as [|a [|b [|x xs]]]; simpl; try discriminate.
  rewrite Hmap.
  destruct (serviceMap server !! a) as [sv|] eqn:Hsv; simpl; [|discriminate].
  destruct (methods sv !! b) as [mt'|] eqn:Hmt; simpl; [|discriminate].
  intros [= <-]. eauto.
Qed.

(** The validator gives a unary descriptor a pointer as its reply type. *)
Lemma validated_reply_elem upper server sname sv mname mt :
  validated upper server ->
  serviceMap server !! sname = Some sv -> methods sv !! mname = Some mt ->
  stream mt = false -> exists e, Elem (ReplyType mt) = Some e.
Proof.
  intros Hval Hsv Hmt Hstream.
  destruct (Hval _ _ _ _ Hsv Hmt) as (m & _ & Hp).
  apply prepareMethod_sound in Hp as ((_ & _ & _ & Hreply & _) & _).
  destruct Hreply as [[_ Hs]|(n & p & e & -> & _)]; [congruence|].
  simpl. eauto.
Qed.

(** One iteration on a validated registry: either the header read fails and
    the loop breaks having done nothing, or the request is read with its
    body and answered in one of the three ways, and the loop goes on. *)
Lemma serveStep_cases upper contextVal eofChan cn :
  validated upper (cn_server cn) ->
  (exists e cn',
     snd (ReadRequestHeader (cn_codec cn)) = inl e /\
     serveStep contextVal eofChan cn = (cn', Break) /\
     cn_events cn' = cn_events cn /\
     cn_nextChan cn' = cn_nextChan cn /\
     serviceMap (cn_server cn') = serviceMap (cn_server cn)) \/
  (exists req cn' sink evs,
     snd (ReadRequestHeader (cn_codec cn)) = inr req /\
     serveStep contextVal eofChan cn = (cn', Continue) /\
     input (cn_codec cn') = tail (input (cn_codec cn)) /\
     serviceMap (cn_server cn') = serviceMap (cn_server cn) /\
     cn_events cn' = (cn_events cn ++ DReadBody sink :: evs)%list /\
     answered eofChan cn cn' req evs).
Proof.
  intros Hval.
  destruct (snd (ReadRequestHeader (cn_codec cn))) as [e|req] eqn:Hhead.
  - left.
    destruct (readRequest_header_fails (cn_server cn) (cn_codec cn) (cn_nextAddr cn) e Hhead)
      as (r & err & Hrd & Hhdr & Herr & Hne & Hreads).
    destruct (readRequestHeader_fails (cn_server cn) (cn_codec cn) e Hhead)
      as (_ & Hkeep & _).
    pose proof (readRequestHeader_serviceMap (cn_server cn) (cn_codec cn)) as Hmap.
    unfold serveStep. rewrite Hrd, Herr, Hhdr, Hkeep, Hreads. simpl.
    destruct err; try congruence; eexists e, _; (split; [reflexivity|]);
      (split; [reflexivity|]); simpl; rewrite app_nil_r; auto.
  - right. exists req.
    destruct (readRequestHeader_reads (cn_server cn) (cn_codec cn) req Hhead)
      as (Hreq & Hkeep & Hcodec & _ & Hroute).
    pose proof (readRequestHeader_serviceMap (cn_server cn) (cn_codec cn)) as Hmap.
    pose proof (ReadRequestBody_input (cn_codec cn)) as Hbody.
    unfold serveStep, readRequest.
    destruct (h_err (readRequestHeader (cn_server cn) (cn_codec cn))) as [err|] eqn:Herr.
    + rewrite Hkeep, Hcodec. simpl.
      destruct (ReadRequestBody (cn_codec cn)) as [codec' b]. simpl in Hbody.
      simpl. rewrite Hkeep, Hreq.
      destruct err; simpl.
      * eexists _, None, _. split; [reflexivity|]. split; [reflexivity|]. simpl.
        split; [exact Hbody|]. split; [exact Hmap|].
        split; [rewrite <- app_assoc; reflexivity|]. left. split; reflexivity.
      * match goal with
        | |- context [sendResponse ?sv ?rq ?rp ?cd ?em ?l] =>
            destruct (sendResponse_header sv rq rp cd em l) as (_ & Hseq & _ & Hl & _);
            pose proof (sendResponse_input sv rq rp cd em l) as Hin;
            pose proof (sendResponse_serviceMap sv rq rp cd em l) as Hsm
        end.
        eexists _, None, _. split; [reflexivity|]. split; [reflexivity|]. simpl.
        split; [rewrite Hin; exact Hbody|]. split; [rewrite Hsm; exact Hmap|].
        split; [rewrite <- app_assoc; reflexivity|]. right; left.
        eexists _, _. split; [reflexivity|]. repeat split; auto.
      * match goal with
        | |- context [sendResponse ?sv ?rq ?rp ?cd ?em ?l] =>
            destruct (sendResponse_header sv rq rp cd em l) as (_ & Hseq & _ & Hl & _);
            pose proof (sendResponse_input sv rq rp cd em l) as Hin;
            pose proof (sendResponse_serviceMap sv rq rp cd em l) as Hsm
        end.
        eexists _, None, _. split; [reflexivity|]. split; [reflexivity|]. simpl.
        split; [rewrite Hin; exact Hbody|]. split; [rewrite Hsm; exact Hmap|].
        split; [rewrite <- app_assoc; reflexivity|]. right; left.
        eexists _, _. split; [reflexivity|]. repeat split; auto.
    + destruct (Hroute eq_refl) as [[sv Hsv] [mt Hmt]]. rewrite Hmt, Hcodec.
      destruct (readRequestHeader_registered _ _ _ Hmt) as (sname & sv0 & mname & Hsv0 & Hmt0).
      set (alloc := match ArgType mt with
                    | TPtr _ _ e => (New e (cn_nextAddr cn), false)
                    | t => (New t (cn_nextAddr cn), true)
                    end).
      destruct alloc as [[argv a1] argIsValue].
      destruct (ReadRequestBody (cn_codec cn)) as [codec' [e|]]; simpl in Hbody.
      * simpl. rewrite Hkeep, Hreq.
        match goal with
        | |- context [sendResponse ?sv ?rq ?rp ?cd ?em ?l] =>
            destruct (sendResponse_header sv rq rp cd em l) as (_ & Hseq & _ & Hl & _);
            pose proof (sendResponse_input sv rq rp cd em l) as Hin;
            pose proof (sendResponse_serviceMap sv rq rp cd em l) as Hsm
        end.
        eexists _, (Some argv), _. split; [reflexivity|]. split; [reflexivity|]. simpl.
        split; [rewrite Hin; exact Hbody|]. split; [rewrite Hsm; exact Hmap|].
        split; [rewrite <- app_assoc; reflexivity|]. right; left.
        eexists _, _. split; [reflexivity|]. repeat split; auto.
      * destruct (stream mt) eqn:Hstream.
        -- simpl. rewrite Hreq, Hsv, Hmt. simpl.
           eexists _, (Some argv), _. split; [reflexivity|]. split; [reflexivity|].
           simpl. split; [exact Hbody|]. split; [exact Hmap|].
           split; [rewrite <- app_assoc; reflexivity|]. right; right.
           eexists sv, (Build_call mt req _ _ contextVal eofChan
                          (S (cn_nextChan cn)) (cn_nextChan cn)).
           split; [reflexivity|]. simpl.
           repeat split; auto. apply lookup_insert_eq.
        -- destruct (validated_reply_elem _ _ _ _ _ _ Hval Hsv0 Hmt0 Hstream) as [el Hel].
           rewrite Hel. simpl. rewrite Hreq, Hsv, Hmt. simpl.
           eexists _, (Some argv), _. split; [reflexivity|]. split; [reflexivity|].
           simpl. split; [exact Hbody|]. split; [exact Hmap|].
           split; [rewrite <- app_assoc; reflexivity|]. right; right.
           eexists sv, (Build_call mt req _ _ contextVal eofChan
                          (S (cn_nextChan cn)) (cn_nextChan cn)).
           split; [reflexivity|]. simpl.
           repeat split; auto. apply lookup_insert_eq.
Qed.

Lemma serveLoop_reads upper contextVal eofChan fuel cn :
  validated upper (cn_server cn) ->
  (length (input (cn_codec cn)) < fuel)%nat ->
  exists cn',
    serveLoop fuel contextVal eofChan cn = Some (hangUp eofChan cn', Break) /\
    reads contextVal eofChan cn cn'.
Proof.
  revert cn. induction fuel as [|fuel IH]; intros cn Hval Hfuel; [lia|].
  simpl.
  destruct (serveStep_cases upper contextVal eofChan cn Hval)
    as [(e & cn1 & _ & Hstep & Hev & Hch & _)
       |(rq & cn1 & sink & evs & Hhead & Hstep & Hin & Hmap & Hev & Hans)].
  - rewrite Hstep. exists cn1. split; [reflexivity|].
    apply reads_break; assumption.
  - rewrite Hstep.
    assert (Hlt : (length (input (cn_codec cn1)) < fuel)%nat).
    { rewrite Hin. unfold ReadRequestHeader in Hhead.
      destruct (input (cn_codec cn)); simpl in *; [discriminate|lia]. }
    destruct (IH cn1 (validated_ext _ _ _ Hmap Hval) Hlt) as (cn' & Hloop & Hreads).
    exists cn'. split; [exact Hloop|].
    eapply reads_next; eassumption.
Qed.

Lemma tally_nil lo hi : tally lo hi [].
Proof.
  repeat split; try reflexivity; constructor.
Qed.

Lemma reads_chans contextVal eofChan cn cn' :
  reads contextVal eofChan cn cn' -> (cn_nextChan cn <= cn_nextChan cn')%nat.
Proof.
  induction 1 as [cn cn' _ _ Hch|cn cn1 cn' rq sink evs _ _ Hans _ IH]; [lia|].
  destruct Hans as [[_ Hch]|[(f & werr & _ & _ & _ & Hch)
                            |(sv & c & _ & _ & _ & Hch & _)]]; lia.
Qed.

Lemma reads_tally contextVal eofChan cn cn' :
  reads contextVal eofChan cn cn' ->
  exists evs,
    cn_events cn' = (cn_events cn ++ evs)%list /\
    tally (cn_nextChan cn) (cn_nextChan cn') evs.
Proof.
  induction 1 as [cn cn' _ Hev Hch|cn cn1 cn' rq sink evs _ Hev Hans Hreads IH].
  - exists []. rewrite app_nil_r. split; [exact Hev|apply tally_nil].
  - destruct IH as (rest & Hev' & Hb & Hw & Hnd & Hrange & Hcl).
    pose proof (reads_chans _ _ _ _ Hreads) as Hmono.
    exists (DReadBody sink :: evs ++ rest)%list.
    split.
    { rewrite Hev', Hev, <- app_assoc. reflexivity. }
    unfold tally, bodyReads, responses, cancels, callChans, spawnedCalls,
      watchedDones in *.
    unfold omap in *.
    destruct Hans as [[-> Hch]|[(f & werr & -> & _ & _ & Hch)
                              |(sv & c & -> & Hd & Hs & Hch & _)]]; simpl.
    + rewrite Hb, Hw. repeat split; auto; try lia;
        try (eapply Forall_impl; [exact Hrange|]; simpl; lia);
        try (repeat constructor; exact Hcl).
    + rewrite Hb, Hw. repeat split; auto; try lia;
        try (eapply Forall_impl; [exact Hrange|]; simpl; lia);
        try (repeat constructor; exact Hcl).
    + rewrite Hb, Hw. rewrite Forall_forall in Hrange.
      split; [lia|]. split; [reflexivity|]. split; [|split].
      * apply NoDup_cons. split.
        { intros Hin. apply elem_of_cons in Hin as [Heq|Hin]; [lia|].
          apply Hrange in Hin. lia. }
        apply NoDup_cons. split; [|exact Hnd].
        intros Hin. apply Hrange in Hin. lia.
      * constructor; [lia|]. constructor; [lia|].
        apply Forall_forall. intros ch Hin. apply Hrange in Hin. lia.
      * repeat constructor. exact Hcl.
Qed.

(** The sample server holds the validator's descriptors. *)
Lemma exServer_validated : validated noneAboveLatin1 exServer.
Proof.
  intros sname sv mname mt. unfold exServer, installService. simpl.
  destruct (decide ("Arith" = sname)) as [<-|Hne].
  - rewrite lookup_insert_eq. intros [= <-]. simpl. unfold installMethods.
    intros Hm. apply foldl_install_origin in Hm as [Hm|(m & _ & Hn & Hp)].
    + rewrite lookup_empty in Hm. discriminate.
    + eauto.
  - rewrite lookup_insert_ne by exact Hne. rewrite lookup_empty. discriminate.
Qed.

(** The whole of a served connection on a validated registry. *)
Lemma serve_summary upper server codec ctx nextAddr nextChan :
  validated upper server ->
  exists cn evs,
    ServeCodecWithContext server codec ctx nextAddr nextChan
      = Some (hangUp nextChan cn, Break) /\
    cn_events cn = evs /\
    tally (S nextChan) (cn_nextChan cn) evs /\
    callsCarry (fst (contextValue server ctx nextAddr)) nextChan evs.
Proof.
  intros Hval. unfold ServeCodecWithContext, openConn.
  destruct (contextValue server ctx nextAddr) as [contextVal a1] eqn:Hctx.
  match goal with
  | |- context [serveLoop ?fuel ?cv ?e ?cn0] =>
      destruct (serveLoop_reads upper cv e fuel cn0 Hval) as (cn & Hloop & Hreads);
      [simpl; lia|]
  end.
  destruct (reads_tally _ _ _ _ Hreads) as (evs & Hev & Htally).
  simpl in Hev, Htally.
  exists cn, evs. split; [exact Hloop|]. split; [exact Hev|]. split; [exact Htally|].
  simpl. rewrite <- Hev.
  assert (Hcarry : callsCarry contextVal nextChan (cn_events (hangUp nextChan cn))).
  { eapply serveLoop_callsCarry; [|exact Hloop]. intros s0 c0 []. }
  intros s0 c0 Hin. apply (Hcarry s0 c0). simpl. apply in_or_app. left. exact Hin.
Qed.



Lemma spawnedCalls_closing evs ch :
  spawnedCalls (evs ++ [DClose ch; DCodecClose]) = spawnedCalls evs.
Proof. unfold spawnedCalls. rewrite omap_app. simpl. apply app_nil_r. Qed.

(** X6: on a validated registry every request whose body the reader read is
    answered in exactly one way: the body reads are as many as the executors
    started, the error responses written and the cancellations started
    together; and every executor has its watcher, waiting on that executor's
    own done channel, in the same order. *)
Theorem serve_accounts (upper : Z -> bool) (server : Server) (codec : Codec)
    (ctx : option (type * payload)) (nextAddr : nat) (nextChan : chan)
    (cn : conn) (ctl : control) :
  validated upper server ->
  ServeCodecWithContext server codec ctx nextAddr nextChan = Some (cn, ctl) ->
  bodyReads (cn_events cn) =
    (length (spawnedCalls (cn_events cn)) + responses (cn_events cn)
     + cancels (cn_events cn))%nat /\
  watchedDones (cn_events cn) = map done (spawnedCalls (cn_events cn)).
Proof.
  intros Hval Hserve.
  destruct (serve_summary upper server codec ctx nextAddr nextChan Hval)
    as (cn0 & evs & Hserve0 & Hev & (Hb & Hw & _) & _).
  rewrite Hserve0 in Hserve. injection Hserve as <- _.
  simpl. rewrite Hev, spawnedCalls_closing.
  unfold bodyReads, responses, cancels, watchedDones in *.
  rewrite !omap_app. simpl. rewrite !length_app. simpl.
  rewrite app_nil_r. split; [lia|exact Hw].
Qed.

Lemma serve_accounts_witness :
  exists cn,
    ServeCodec exServer chattyCodec 0%nat 0%nat = Some (cn, Break) /\
    bodyReads (cn_events cn) =
      (length (spawnedCalls (cn_events cn)) + responses (cn_events cn)
       + cancels (cn_events cn))%nat /\
    watchedDones (cn_events cn) = map done (spawnedCalls (cn_events cn)).
Proof.
  eexists. split; [vm_compute; reflexivity|].
  eapply (serve_accounts noneAboveLatin1 exServer chattyCodec None 0%nat 0%nat).
  - exact exServer_validated.
  - vm_compute. reflexivity.
Defined.

(** X7: the executors of one connection all share the connection's [eof]
    channel, and each has a done and a stop channel of its own: over all
    executors started, the done and stop channels are pairwise different and
    different from [eof]. *)
Theorem serve_fresh_channels (upper : Z -> bool) (server : Server) (codec : Codec)
    (ctx : option (type * payload)) (nextAddr : nat) (nextChan : chan)
    (cn : conn) (ctl : control) :
  validated upper server ->
  ServeCodecWithContext server codec ctx nextAddr nextChan = Some (cn, ctl) ->
  NoDup (nextChan :: callChans (cn_events cn)) /\
  (forall s c, List.In (DGo (TCall s c)) (cn_events cn) -> eof c = nextChan).
Proof.
  intros Hval Hserve.
  destruct (serve_summary upper server codec ctx nextAddr nextChan Hval)
    as (cn0 & evs & Hserve0 & Hev & (_ & _ & Hnd & Hrange & _) & Hcarry).
  rewrite Hserve0 in Hserve. injection Hserve as <- _.
  simpl. rewrite Hev. split.
  - unfold callChans. rewrite spawnedCalls_closing. apply NoDup_cons. split.
    + intros Hin. rewrite Forall_forall in Hrange.
      apply Hrange in Hin. lia.
    + exact Hnd.
  - intros s c Hin. apply in_app_or in Hin as [Hin|[[=]|[[=]|[]]]].
    exact (proj2 (Hcarry s c Hin)).
Qed.

Lemma serve_fresh_channels_witness :
  exists cn,
    ServeCodec exServer chattyCodec 0%nat 0%nat = Some (cn, Break) /\
    NoDup (0%nat :: callChans (cn_events cn)) /\
    (forall s c, List.In (DGo (TCall s c)) (cn_events cn) -> eof c = 0%nat).
Proof.
  eexists. split; [vm_compute; reflexivity|].
  eapply (serve_fresh_channels noneAboveLatin1 exServer chattyCodec None 0%nat 0%nat).
  - exact exServer_validated.
  - vm_compute. reflexivity.
Defined.

(** * The bookkeeping goroutines *)

Lemma maybeLog_channels seq cn :
  cn_stopChans (maybeLog seq cn) = cn_stopChans cn /\
  cn_closed (maybeLog seq cn) = cn_closed cn /\
  cn_events (maybeLog seq cn) = cn_events cn /\
  cn_requestLogMap (maybeLog seq cn) !! seq = None.
Proof.
  unfold maybeLog. destruct (cn_requestLogMap cn !! seq) eqn:E; simpl;
    repeat split; auto. apply lookup_delete_eq.
Qed.

Lemma maybeLog_absent seq cn :
  cn_requestLogMap cn !! seq = None ->
  cn_log (maybeLog seq cn) = (cn_log cn ++ [LogBadSeq seq])%list /\
  cn_requestLogMap (maybeLog seq cn) = cn_requestLogMap cn.
Proof. unfold maybeLog. intros ->. split; reflexivity. Qed.

(** X8: a cancellation that comes after the call is through is dropped. Once
    the watcher has run for a seq, or a cancellation for that seq has run
    before, a CloseStream for the seq closes no channel and removes nothing:
    channels, events and the live-stream map stay as they are, and the only
    trace is the bad-seqnum warning in the log. *)
Theorem late_cancel_is_dropped (seq : Z) (cn : conn) :
  (let cn1 := watchDone seq cn in
   let cn2 := cancelStream seq cn1 in
   cn_closed cn2 = cn_closed cn1 /\ cn_events cn2 = cn_events cn1 /\
   cn_stopChans cn2 = cn_stopChans cn1 /\
   cn_log cn2 = (cn_log cn1 ++ [LogBadSeq seq])%list) /\
  (let cn1 := cancelStream seq cn in
   let cn2 := cancelStream seq cn1 in
   cn_closed cn2 = cn_closed cn1 /\ cn_events cn2 = cn_events cn1 /\
   cn_stopChans cn2 = cn_stopChans cn1 /\
   cn_log cn2 = (cn_log cn1 ++ [LogBadSeq seq])%list).
Proof.
  assert (Hgen : forall cn1,
            cn_stopChans cn1 !! seq = None -> cn_requestLogMap cn1 !! seq = None ->
            let cn2 := cancelStream seq cn1 in
            cn_closed cn2 = cn_closed cn1 /\ cn_events cn2 = cn_events cn1 /\
            cn_stopChans cn2 = cn_stopChans cn1 /\
            cn_log cn2 = (cn_log cn1 ++ [LogBadSeq seq])%list).
  { intros cn1 Hstop Hlog. unfold cancelStream, maybeLog, setStops. simpl.
    rewrite Hstop, Hlog. simpl. rewrite app_nil_r.
    repeat split. apply delete_id. exact Hstop. }
  split.
  - apply Hgen.
    + unfold watchDone.
      destruct (maybeLog_channels seq
                  (setStops cn (delete seq (cn_stopChans cn)) (cn_closed cn) []))
        as (-> & _). simpl. apply lookup_delete_eq.
    + unfold watchDone. apply maybeLog_channels.
  - apply Hgen.
    + unfold cancelStream.
      destruct (cn_stopChans cn !! seq); simpl;
        destruct (maybeLog_channels seq
                    (setStops cn (delete seq (cn_stopChans cn)) (cn_closed cn) []))
          as (-> & _); simpl; apply lookup_delete_eq.
    + unfold cancelStream.
      destruct (cn_stopChans cn !! seq); simpl; apply maybeLog_channels.
Qed.

(** X9: cancelling a live stream emits its log entry at once and removes it;
    when the cancelled call later completes, its watcher finds no entry any
    more, logs the bad-seqnum warning and changes nothing else. *)
Theorem done_after_cancel_warns (seq : Z) (cn : conn) (stopCh : chan) (m : string) :
  cn_stopChans cn !! seq = Some stopCh ->
  cn_requestLogMap cn !! seq = Some m ->
  let cn1 := cancelStream seq cn in
  let cn2 := watchDone seq cn1 in
  cn_closed cn1 = {[ stopCh ]} ∪ cn_closed cn /\
  cn_log cn1 = (cn_log cn ++ [LogEntry seq m])%list /\
  cn_log cn2 = (cn_log cn1 ++ [LogBadSeq seq])%list /\
  cn_closed cn2 = cn_closed cn1 /\
  cn_events cn2 = cn_events cn1 /\
  cn_stopChans cn2 = cn_stopChans cn1.
Proof.
  intros Hstop Hlog. simpl.
  unfold watchDone, cancelStream, maybeLog, setStops. simpl.
  rewrite Hstop, Hlog. simpl. rewrite lookup_delete_eq. simpl.
  rewrite !app_nil_r. repeat split.
  apply delete_id. apply lookup_delete_eq.
Qed.

Lemma done_after_cancel_warns_witness :
  cn_log (watchDone 5 (cancelStream 5
            (dispatch (freshConn exServer idleCodec) VInvalid 0%nat exService
               exCountType (req exCall) VInvalid VInvalid)))
  = [LogEntry 5 "Arith.Count"; LogBadSeq 5].
Proof.
  destruct (done_after_cancel_warns 5
              (dispatch (freshConn exServer idleCodec) VInvalid 0%nat exService
                 exCountType (req exCall) VInvalid VInvalid)
              2%nat "Arith.Count" eq_refl eq_refl) as (_ & H1 & H2 & _).
  rewrite H2, H1. reflexivity.
Defined.

(** X10: a request that reuses the seq of a call still in flight takes over
    that seq's entry in the live-stream map. A CloseStream for the seq then
    closes the stop channel of the newer call only, and when either call
    completes the watcher removes the entry, whichever call it belongs to. *)
Theorem reused_seq_takes_over (cn : conn) (contextVal : Value) (eofChan : chan)
    (sv : service) (mt : methodType) (rq : Request) (argv replyv : Value)
    (old : chan) :
  cn_stopChans cn !! req_Seq rq = Some old ->
  let cn1 := dispatch cn contextVal eofChan sv mt rq argv replyv in
  cn_stopChans cn1 !! req_Seq rq = Some (S (cn_nextChan cn)) /\
  cn_closed (cancelStream (req_Seq rq) cn1) = {[ S (cn_nextChan cn) ]} ∪ cn_closed cn /\
  (old <> S (cn_nextChan cn) -> old ∉ cn_closed cn ->
   old ∉ cn_closed (cancelStream (req_Seq rq) cn1)) /\
  cn_stopChans (watchDone (req_Seq rq) cn1) !! req_Seq rq = None.
Proof.
  intros Hold. simpl.
  assert (Hclosed : cn_closed (cancelStream (req_Seq rq)
                       (dispatch cn contextVal eofChan sv mt rq argv replyv))
                    = {[ S (cn_nextChan cn) ]} ∪ cn_closed cn).
  { unfold cancelStream, dispatch, maybeLog, setStops. simpl.
    rewrite !lookup_insert_eq. simpl. reflexivity. }
  split; [|split; [|split]].
  - unfold dispatch. simpl. apply lookup_insert_eq.
  - exact Hclosed.
  - intros Hne Hopen. rewrite Hclosed. intros Hin.
    apply elem_of_union in Hin as [Hin|Hin]; [|exact (Hopen Hin)].
    apply elem_of_singleton in Hin. exact (Hne Hin).
  - unfold watchDone.
    destruct (maybeLog_channels (req_Seq rq)
                (setStops (dispatch cn contextVal eofChan sv mt rq argv replyv)
                   (delete (req_Seq rq)
                      (cn_stopChans (dispatch cn contextVal eofChan sv mt rq argv replyv)))
                   (cn_closed (dispatch cn contextVal eofChan sv mt rq argv replyv)) []))
      as (-> & _).
    simpl. apply lookup_delete_eq.
Qed.

Lemma reused_seq_takes_over_witness :
  let cn := dispatch (freshConn exServer idleCodec) VInvalid 0%nat exService
              exCountType (req exCall) VInvalid VInvalid in
  cn_stopChans cn !! 5 = Some 2%nat /\
  cn_closed (cancelStream 5
               (dispatch cn VInvalid 0%nat exService exCountType (req exCall)
                  VInvalid VInvalid))
  = {[ 4%nat ]} ∪ cn_closed cn.
Proof.
  simpl. split; [reflexivity|].
  eapply (reused_seq_takes_over
           (dispatch (freshConn exServer idleCodec) VInvalid 0%nat exService
              exCountType (req exCall) VInvalid VInvalid)
           VInvalid 0%nat exService exCountType (req exCall) VInvalid VInvalid
           2%nat eq_refl).
Defined.

(** * Further properties of the executor *)

Section ExecutorFacts.

Variable s : service.
Variable c : call.

Lemma exec_framesEcho ch st st' :
  framesEcho c (st_trace st) -> exec s c ch st = Some st' ->
  framesEcho c (st_trace st').
Proof.
  intros Hinv Hex.
  destruct st as [srv cd mn pm se nc cl tr].
  unfold exec in Hex; simpl in Hex.
  destruct ch, mn as [|h|e|]; try destruct h as [e'|v k|k|v k k'];
    destruct pm; simpl in Hex; try discriminate;
    repeat match type of Hex with
           | (if ?b then _ else _) = _ => destruct b eqn:?
           end;
    try discriminate; injection Hex as <-; simpl in *; try exact Hinv.
  all: intros f werr Hin;
    repeat (apply in_app_or in Hin as [Hin|Hin]); try exact (Hinv f werr Hin);
    simpl in Hin;
    repeat match type of Hin with
           | _ \/ _ => destruct Hin as [Hin|Hin]
           | False => destruct Hin
           end;
    try discriminate Hin; injection Hin as <- _.
  all: match goal with
       | |- context [sendResponse ?sv ?rq ?rp ?cdc ?em ?l] =>
           destruct (sendResponse_header sv rq rp cdc em l)
             as (Hsm & Hseq & Her & Hl & Hb)
       end;
    split; [exact Hseq|]; split; [exact Hsm|];
    rewrite Hl; intros Hlast; try discriminate Hlast;
    (split; [exact Her|eexists; exact Hb]).
Qed.

Lemma run_framesEcho sched st st' :
  framesEcho c (st_trace st) -> run s c sched st = Some st' ->
  framesEcho c (st_trace st').
Proof.
  revert st. induction sched as [|ch sched IH]; intros st Hinv; simpl.
  - intros [= <-]. exact Hinv.
  - destruct (exec s c ch st) as [st1|] eqn:E; [|discriminate].
    apply IH. eapply exec_framesEcho; eassumption.
Qed.

Lemma exec_closed_mono ch st st' :
  exec s c ch st = Some st' -> st_closed st ⊆ st_closed st'.
Proof.
  intros Hex.
  destruct st as [srv cd mn pm se nc cl tr].
  unfold exec in Hex; simpl in Hex.
  destruct ch, mn as [|h|e|]; try destruct h as [e'|v k|k|v k k'];
    destruct pm; simpl in Hex; try discriminate;
    repeat match type of Hex with
           | (if ?b then _ else _) = _ => destruct b eqn:?
           end;
    try discriminate; injection Hex as <-; simpl;
    first [reflexivity|apply union_subseteq_r].
Qed.

(** The pumper comes to stand at [errChan <- e] only from its [select],
    through the case of a closed [eof] or [stop], with [e] the end of input. *)
Lemma exec_pump_errsend ch st st' e0 :
  exec s c ch st = Some st' -> st_pump st' = PErrSend e0 ->
  st_pump st = PErrSend e0 \/
  (e0 = io_EOF /\ (eof c ∈ st_closed st \/ stop c ∈ st_closed st)).
Proof.
  intros Hex.
  destruct st as [srv cd mn pm se nc cl tr].
  unfold exec in Hex; simpl in Hex.
  destruct ch, mn as [|h|e|]; try destruct h as [e'|v k|k|v k k'];
    destruct pm; simpl in Hex; try discriminate;
    repeat match type of Hex with
           | (if ?b then _ else _) = _ => destruct b eqn:?
           end;
    try discriminate; injection Hex as <-; simpl;
    rewrite ?sendResponse_err_nil; intros Hp;
    try discriminate Hp;
    try (destruct (stream (mtype c)); discriminate Hp);
    first [ left; exact Hp
          | injection Hp as <-; right; split; [reflexivity|]; simpl; tauto ].
Qed.

(** A value reaches the handler over [errChan] only from a pumper that stood
    at [errChan <- e]. *)
Lemma exec_errchan ch st st' e0 :
  exec s c ch st = Some st' -> List.In (EvErrChan e0) (st_trace st') ->
  List.In (EvErrChan e0) (st_trace st) \/ st_pump st = PErrSend e0.
Proof.
  intros Hex.
  destruct st as [srv cd mn pm se nc cl tr].
  unfold exec in Hex; simpl in Hex.
  destruct ch, mn as [|h|e|]; try destruct h as [e'|v k|k|v k k'];
    destruct pm; simpl in Hex; try discriminate;
    repeat match type of Hex with
           | (if ?b then _ else _) = _ => destruct b eqn:?
           end;
    try discriminate; injection Hex as <-; simpl; intros Hin;
    try (left; exact Hin);
    repeat (apply in_app_or in Hin as [Hin|Hin]); try (left; exact Hin);
    simpl in Hin;
    repeat match type of Hin with
           | _ \/ _ => destruct Hin as [Hin|Hin]
           | False => destruct Hin
           end;
    try discriminate Hin;
    injection Hin as <-; right; reflexivity.
Qed.

Lemma exec_eofJustified ch st st' :
  eofJustified c st -> exec s c ch st = Some st' -> eofJustified c st'.
Proof.
  intros [Hp Ht] Hex.
  pose proof (exec_closed_mono _ _ _ Hex) as Hmono.
  assert (Hup : forall e0,
            e0 = io_EOF /\ (eof c ∈ st_closed st \/ stop c ∈ st_closed st) ->
            e0 = io_EOF /\ (eof c ∈ st_closed st' \/ stop c ∈ st_closed st')).
  { intros e0 [He [Hc|Hc]]; (split; [exact He|]); [left|right]; apply Hmono, Hc. }
  split; intros e0 H0.
  - apply (exec_pump_errsend _ _ _ _ Hex) in H0 as [H0|H0]; apply Hup; auto.
  - apply (exec_errchan _ _ _ _ Hex) in H0 as [H0|H0]; apply Hup; auto.
Qed.

Lemma run_eofJustified sched st st' :
  eofJustified c st -> run s c sched st = Some st' -> eofJustified c st'.
Proof.
  revert st. induction sched as [|ch sched IH]; intros st Hinv; simpl.
  - intros [= <-]. exact Hinv.
  - destruct (exec s c ch st) as [st1|] eqn:E; [|discriminate].
    apply IH. eapply exec_eofJustified; eassumption.
Qed.



End ExecutorFacts.

Lemma call_safety_witness :
  exists st,
    (closesOf (done exCall) (st_trace st) <= 1)%nat /\
    length (terminalFrames (st_trace st)) = closesOf (done exCall) (st_trace st) /\
    (closesOf (done exCall) (st_trace st) = 1%nat ->
     exists pre f werr,
       st_trace st = (pre ++ [EvWrite f werr; EvClose (done exCall)])%list /\
       quiet exCall pre /\ f_last f = true /\
       Seq (f_resp f) = req_Seq (req exCall) /\
       ServiceMethod (f_resp f) = req_ServiceMethod (req exCall)).
Proof.
  eexists.
  eapply (call_safety exService exCall
            [CStart; CData; CReturn; CFuncDone; CFinish] _ NewServer idleCodec ∅).
  reflexivity.
Defined.

(** X11: every frame an executor hands to the codec echoes the seq and the
    service_method of its request, and every non-terminal frame has the empty
    error and carries a value the handler put on the stream. *)
Theorem call_frames_echo (s : service) (c : call) (server : Server)
    (codec : Codec) (closed : gset chan) (sched : list choice) (st : cstate)
    (f : frame) (werr : option string) :
  run s c sched (initState c server codec closed) = Some st ->
  List.In (EvWrite f werr) (st_trace st) ->
  Seq (f_resp f) = req_Seq (req c) /\
  ServiceMethod (f_resp f) = req_ServiceMethod (req c) /\
  (f_last f = false -> Error (f_resp f) = "" /\ exists v, f_body f = BData v).
Proof.
  intros Hrun Hin.
  assert (Hinit : framesEcho c (st_trace (initState c server codec closed))).
  { intros f0 w0 []. }
  exact (run_framesEcho s c sched _ _ Hinit Hrun f werr Hin).
Qed.

Lemma call_frames_echo_witness :
  Seq (f_resp (dataFrame exCall "1")) = 5 /\
  ServiceMethod (f_resp (dataFrame exCall "1")) = "Arith.Count" /\
  (f_last (dataFrame exCall "1") = false ->
   Error (f_resp (dataFrame exCall "1")) = "" /\
   exists v, f_body (dataFrame exCall "1") = BData v).
Proof.
  eapply (call_frames_echo exService exCall NewServer brokenCodec ∅
            [CStart; CData] _ (dataFrame exCall "1") (Some "broken pipe")).
  - reflexivity.
  - simpl. right. left. reflexivity.
Defined.

Lemma sendResponse_last_frame server c reply codec errmsg :
  s_frame (sendResponse server (req c) reply codec errmsg true)
  = lastFrame c errmsg reply.
Proof.
  unfold sendResponse, getResponse, lastFrame.
  destruct (freeResp server); destruct (String.eqb errmsg "") eqn:E; simpl;
    destruct (WriteResponse codec _); simpl; try reflexivity;
    apply String.eqb_eq in E; rewrite E; reflexivity.
Qed.

(** X13: the unary path. When the handler returns, the one frame written is
    terminal and echoes the request; its error is the handler's error string
    (empty for nil), and its body is the reply value exactly if that string
    is empty, the placeholder otherwise. So a handler error whose text is
    empty goes out like a success, reply included. Then [c.done] is closed. *)
Theorem unary_reply_or_placeholder (s : service) (c : call) (server : Server)
    (codec : Codec) (closed : gset chan) (e : option string) :
  stream (mtype c) = false ->
  method_Func (method (mtype c)) (callArgs s c (replyv c)) = HReturn e ->
  exists st werr,
    run s c [CStart; CReturn] (initState c server codec closed) = Some st /\
    st_main st = MDone /\
    done c ∈ st_closed st /\
    st_trace st =
      [EvCall (callArgs s c (replyv c)); EvReturn e;
       EvWrite (lastFrame c (errString e) (BValue (replyv c))) werr;
       EvClose (done c)].
Proof.
  intros Hstream Hfun.
  eexists _, (s_werr (sendResponse server (req c) (BValue (replyv c)) codec
                        (errString e) true)).
  split.
  - unfold run, exec, initState; simpl. rewrite Hstream; simpl.
    rewrite Hfun; simpl. rewrite ?Hstream. reflexivity.
  - simpl. split; [reflexivity|]. split; [set_solver|].
    rewrite sendResponse_last_frame. reflexivity.
Qed.

Lemma unary_reply_or_placeholder_witness :
  exists st werr,
    run exService exUnaryCall [CStart; CReturn]
      (initState exUnaryCall NewServer idleCodec ∅) = Some st /\
    st_main st = MDone /\
    1%nat ∈ st_closed st /\
    st_trace st =
      [EvCall [VRcvr tArith; VNew tArgs 1; VNew tInt 2]; EvReturn None;
       EvWrite {| f_resp := {| ServiceMethod := "Arith.Multiply"; Seq := 1;
                               Error := "" |};
                  f_body := BValue (VNew tInt 2); f_last := true |} werr;
       EvClose 1%nat].
Proof.
  apply (unary_reply_or_placeholder exService exUnaryCall NewServer idleCodec ∅ None);
    reflexivity.
Defined.



(** X15: the handler of a stream is never told of an end of input that did
    not happen. Whatever it receives on [stream.Error] is io.EOF, and by then
    the connection's [eof] or the call's [stop] is closed. *)
Theorem handler_eof_only_after_close (s : service) (c : call) (server : Server)
    (codec : Codec) (closed : gset chan) (sched : list choice) (st : cstate)
    (e : string) :
  run s c sched (initState c server codec closed) = Some st ->
  List.In (EvErrChan e) (st_trace st) ->
  e = io_EOF /\ (eof c ∈ st_closed st \/ stop c ∈ st_closed st).
Proof.
  intros Hrun Hin.
  assert (Hinit : eofJustified c (initState c server codec closed)).
  { split; [discriminate|intros e0 []]. }
  exact (proj2 (run_eofJustified s c sched _ _ Hinit Hrun) e Hin).
Qed.

Lemma handler_eof_only_after_close_witness :
  exists st,
    run exService exWatchCall [CStart; CCloseStop; CStop; CErrRecv]
      (initState exWatchCall NewServer idleCodec ∅) = Some st /\
    List.In (EvErrChan "EOF") (st_trace st) /\
    "EOF" = io_EOF /\
    (eof exWatchCall ∈ st_closed st \/ stop exWatchCall ∈ st_closed st).
Proof.
  eexists. split; [reflexivity|].
  split; [simpl; right; left; reflexivity|].
  eapply (handler_eof_only_after_close exService exWatchCall NewServer idleCodec ∅
            [CStart; CCloseStop; CStop; CErrRecv]).
  - reflexivity.
  - simpl. right. left. reflexivity.
Defined.

Lemma sendResponse_data_frame server c v codec :
  s_frame (sendResponse server (req c) (BData v) codec "" false) = dataFrame c v.
Proof.
  unfold sendResponse, getResponse, dataFrame.
  destruct (freeResp server); simpl; destruct (WriteResponse codec _); reflexivity.
Qed.

Lemma framesOf_app tr1 tr2 :
  framesOf (tr1 ++ tr2) = (framesOf tr1 ++ framesOf tr2)%list.
Proof. apply omap_app. Qed.

(** The pumper takes the values of a sending handler one by one. *)
Lemma run_sends s c vs e st :
  st_main st = MRunning (sends vs e) -> st_pump st = PSelect ->
  exists st',
    run s c (repeat CData (length vs)) st = Some st' /\
    st_main st' = MRunning (HReturn e) /\ st_pump st' = PSelect /\
    st_closed st' = st_closed st /\
    (st_streamErr st = None -> st_streamErr st' = None) /\
    framesOf (st_trace st') = (framesOf (st_trace st) ++ map (dataFrame c) vs)%list.
Proof.
  revert st. induction vs as [|v vs IH]; intros st Hmain Hpump.
  - exists st. simpl. rewrite app_nil_r. repeat split; auto.
  - change (run s c (repeat CData (length (v :: vs))) st)
      with (match exec s c CData st with
            | Some st1 => run s c (repeat CData (length vs)) st1
            | None => None
            end).
    assert (Hex : exec s c CData st = Some (pumpData c st v (sends vs e))).
    { unfold exec. rewrite Hmain, Hpump. reflexivity. }
    rewrite Hex.
    destruct (IH (pumpData c st v (sends vs e))) as (st' & Hrun & Hm & Hp & Hc & Hs & Hf).
    + reflexivity.
    + simpl. rewrite sendResponse_err_nil. reflexivity.
    + exists st'. split; [exact Hrun|]. split; [exact Hm|]. split; [exact Hp|].
      split; [rewrite Hc; reflexivity|]. split.
      * intros _. apply Hs. simpl. apply sendResponse_err_nil.
      * rewrite Hf. simpl. rewrite framesOf_app. simpl.
        rewrite sendResponse_data_frame, <- app_assoc. reflexivity.
Qed.

Lemma run_app s c sched1 sched2 st :
  run s c (sched1 ++ sched2) st =
    match run s c sched1 st with
    | Some st' => run s c sched2 st'
    | None => None
    end.
Proof.
  revert st. induction sched1 as [|ch sched1 IH]; intros st; simpl; [reflexivity|].
  destruct (exec s c ch st); [apply IH|reflexivity].
Qed.

(** X16: a streaming call whose handler sends the values [vs] and returns
    can run to its end: the pumper takes the values one by one, and the
    frames handed to the codec are then one non-terminal frame per value, in
    the order the handler sent them, followed by the one terminal frame; the
    terminal frame says "EOS" if the handler returned nil, and the handler's
    error string otherwise. At the end [c.done] is closed. *)
Theorem stream_sends_in_order (s : service) (c : call) (server : Server)
    (codec : Codec) (closed : gset chan) (vs : list payload) (e : option string) :
  stream (mtype c) = true ->
  method_Func (method (mtype c)) (callArgs s c VStream) = sends vs e ->
  exists st,
    run s c (CStart :: repeat CData (length vs) ++ [CReturn; CFuncDone; CFinish])
      (initState c server codec closed) = Some st /\
    st_main st = MDone /\
    done c ∈ st_closed st /\
    framesOf (st_trace st) =
      (map (dataFrame c) vs
       ++ [lastFrame c (match e with Some m => m | None => "EOS" end) BNil])%list.
Proof.
  intros Hstream Hfun.
  change (run s c (CStart :: repeat CData (length vs) ++ [CReturn; CFuncDone; CFinish])
            (initState c server codec closed))
    with (match exec s c CStart (initState c server codec closed) with
          | Some st1 => run s c (repeat CData (length vs)
                                  ++ [CReturn; CFuncDone; CFinish]) st1
          | None => None
          end).
  unfold exec at 1. simpl st_main. cbv iota. rewrite Hstream, Hfun.
  rewrite run_app.
  match goal with
  | |- context [run s c (repeat CData (length vs)) ?st1] =>
      destruct (run_sends s c vs e st1 eq_refl eq_refl)
        as (st2 & Hrun & Hm & Hp & Hc & Hs & Hf)
  end.
  rewrite Hrun. specialize (Hs eq_refl). simpl in Hf.
  destruct st2 as [srv cd mn pm se nc cl tr]. simpl in *. subst mn pm se.
  unfold exec. simpl. rewrite Hstream. simpl.
  eexists. split; [reflexivity|]. simpl.
  split; [reflexivity|]. split; [set_solver|].
  rewrite <- app_assoc, !framesOf_app, Hf. simpl.
  rewrite sendResponse_last_frame. unfold streamErrmsg, lastStreamResponseError.
  reflexivity.
Qed.

Lemma stream_sends_in_order_witness :
  exists st,
    run exService exCall (CStart :: repeat CData 1 ++ [CReturn; CFuncDone; CFinish])
      (initState exCall NewServer brokenCodec ∅) = Some st /\
    st_main st = MDone /\
    done exCall ∈ st_closed st /\
    framesOf (st_trace st) =
      (map (dataFrame exCall) ["1"] ++ [lastFrame exCall "EOS" BNil])%list.
Proof.
  apply (stream_sends_in_order exService exCall NewServer brokenCodec ∅ ["1"] None);
    reflexivity.
Defined.

(** X17: a descriptor made by the validator is called with exactly as many
    arguments as its method has parameters: the receiver, the context if the
    method declares one, the argument, and the reply or the stream. *)
Theorem call_arity (upper : Z -> bool) (s : service) (c : call) (m : Method)
    (lastArg : Value) :
  prepareMethod upper m = Some (mtype c) ->
  length (callArgs s c lastArg) = length (fn_In (method_Type m)) /\
  (TakesContext (mtype c) = true <-> length (fn_In (method_Type m)) = 4%nat).
Proof.
  intros Hp. apply prepareMethod_sound in Hp as ((_ & Hshape & _) & _).
  unfold callArgs, TakesContext.
  destruct Hshape as [(rcv & -> & ->)|(rcv & ctx & -> & ->)]; simpl;
    split; try reflexivity; split; intros H; try reflexivity; discriminate H.
Qed.

Lemma call_arity_witness :
  length (callArgs exService exCall VStream) = length (fn_In (method_Type exCount)) /\
  (TakesContext (mtype exCall) = true <-> length (fn_In (method_Type exCount)) = 4%nat).
Proof.
  apply (call_arity noneAboveLatin1 exService exCall exCount VStream).
  reflexivity.
Defined.

(** * Further properties of [readRequest] and the free lists *)

(** X18: when [readRequest] succeeds, the argument sits at the first free
    address and has the descriptor's argument type (a value type is read
    through a pointer and dereferenced; a pointer type, unless it is a named
    pointer type, is allocated as its element); a unary call gets its reply
    value at the next address, a pointer to a fresh element of the reply
    type, and a streaming call gets none. *)
Theorem readRequest_allocates (server : Server) (codec : Codec) (a : nat)
    (r : reqResult) :
  readRequest server codec a = Some r ->
  r_err r = None ->
  exists mt,
    h_mtype (r_hdr r) = Some mt /\
    ((forall n p e, ArgType mt = TPtr n p e -> n = "" /\ p = "") ->
     typeOf (r_argv r) = Some (ArgType mt)) /\
    r_argv r = match ArgType mt with
               | TPtr _ _ e => VNew e a
               | t => VElem (VNew t a)
               end /\
    (if stream mt then r_replyv r = VInvalid /\ r_nextAddr r = S a
     else exists e, Elem (ReplyType mt) = Some e /\
                    r_replyv r = VNew e (S a) /\
                    typeOf (r_replyv r) = Some (PtrTo e) /\
                    r_nextAddr r = S (S a)).
Proof.
  unfold readRequest.
  destruct (h_err (readRequestHeader server codec)) as [err|] eqn:Herr.
  { destruct (negb (h_keepReading _)); [intros [= <-]; discriminate|].
    destruct (ReadRequestBody _). intros [= <-]; discriminate. }
  destruct (h_mtype (readRequestHeader server codec)) as [mt|] eqn:Hmt;
    [|discriminate].
  intros Hrd Hok. exists mt.
  assert (Htyp : forall t : type,
            (forall n p e, t = TPtr n p e -> n = "" /\ p = "") ->
            typeOf match t with
                   | TPtr _ _ e => VNew e a
                   | _ => VElem (VNew t a)
                   end = Some t).
  { intros [k n p|n p e] Hnamed; simpl; [reflexivity|].
    destruct (Hnamed n p e eq_refl) as [-> ->]. reflexivity. }
  destruct (ArgType mt) as [k n p|n p e] eqn:Harg; simpl in Hrd;
    destruct (ReadRequestBody _) as [codec' [er|]];
    try (injection Hrd as <-; discriminate Hok);
    destruct (stream mt) eqn:Hstream;
    try (injection Hrd as <-; simpl; rewrite Hmt;
         split; [reflexivity|]; split; [intros Hn; apply (Htyp _ Hn)|];
         split; [reflexivity|]; split; reflexivity);
    destruct (Elem (ReplyType mt)) as [el|] eqn:Hel; try discriminate Hrd;
    injection Hrd as <-; simpl; rewrite Hmt;
    (split; [reflexivity|]); (split; [intros Hn; apply (Htyp _ Hn)|]);
    (split; [reflexivity|]); exists el; repeat split; reflexivity.
Qed.

Lemma readRequest_allocates_witness :
  exists r mt,
    readRequest exServer
      {| input := tail (tail (input chattyCodec)); writeErrs := [];
         codecClosed := false |} 7%nat = Some r /\
    h_mtype (r_hdr r) = Some mt /\
    r_argv r = VElem (VNew tInt 7) /\
    typeOf (r_argv r) = Some tInt /\
    r_replyv r = VInvalid /\ r_nextAddr r = 8%nat.
Proof.
  destruct (readRequest exServer
              {| input := tail (tail (input chattyCodec)); writeErrs := [];
                 codecClosed := false |} 7%nat) as [r|] eqn:Hrd;
    [|vm_compute in Hrd; discriminate Hrd].
  destruct (readRequest_allocates _ _ _ _ Hrd) as (mt & Hmt & Htyp & Hargv & Hreply).
  { vm_compute in Hrd. injection Hrd as <-. reflexivity. }
  assert (Hmt' : mt = exCountType).
  { vm_compute in Hrd. injection Hrd as <-. vm_compute in Hmt.
    injection Hmt as <-. reflexivity. }
  subst mt. simpl in *.
  exists r, exCountType. destruct Hreply as [Hr Hn].
  repeat split; auto. rewrite Hargv. reflexivity.
Defined.

Lemma readRequestHeader_freeReq server codec :
  freeReq (h_server (readRequestHeader server codec)) = tail (freeReq server).
Proof.
  unfold readRequestHeader, getRequest.
  assert (Hget : freeReq (fst (match freeReq server with
                               | [] => (server, zeroRequest)
                               | _ :: next => (withFreeReq server next, zeroRequest)
                               end)) = tail (freeReq server)).
  { destruct (freeReq server) eqn:E; simpl; [exact E|reflexivity]. }
  destruct (match freeReq server with
            | [] => (server, zeroRequest)
            | _ :: next => (withFreeReq server next, zeroRequest)
            end) as [server' r0]. simpl in Hget.
  destruct (ReadRequestHeader codec) as [codec' [e|req]]; simpl; [exact Hget|].
  destruct (String.eqb _ _); simpl; [exact Hget|].
  destruct (splitDot _) as [|x [|y [|z zs]]]; simpl; try exact Hget.
  destruct (serviceMap server' !! x) as [sv|]; simpl; [|exact Hget].
  destruct (methods sv !! y); exact Hget.
Qed.

Lemma sendResponse_freeReq server req reply codec errmsg last :
  freeReq (s_server (sendResponse server req reply codec errmsg last)) = freeReq server.
Proof.
  unfold sendResponse, getResponse.
  destruct (freeResp server); destruct (negb (String.eqb errmsg ""));
    destruct (WriteResponse codec _); reflexivity.
Qed.

(** X19: what becomes of the request header the reader takes from the free
    list for each read. It goes back to the list, holding the request, when
    the request is answered with an error response; it does not go back when
    the header read fails or when the request is a CloseStream: then the list
    is just one header shorter (or still empty). *)
Theorem reader_request_headers (contextVal : Value) (eofChan : chan) (cn : conn) :
  (forall e, snd (ReadRequestHeader (cn_codec cn)) = inl e ->
     freeReq (cn_server (fst (serveStep contextVal eofChan cn)))
     = tail (freeReq (cn_server cn))) /\
  (forall rq, snd (ReadRequestHeader (cn_codec cn)) = inr rq ->
     req_ServiceMethod rq = "CloseStream" ->
     freeReq (cn_server (fst (serveStep contextVal eofChan cn)))
     = tail (freeReq (cn_server cn))) /\
  (forall rq r err,
     snd (ReadRequestHeader (cn_codec cn)) = inr rq ->
     readRequest (cn_server cn) (cn_codec cn) (cn_nextAddr cn) = Some r ->
     r_err r = Some err -> err <> ErrCloseStream ->
     freeReq (cn_server (fst (serveStep contextVal eofChan cn)))
     = rq :: tail (freeReq (cn_server cn))).
Proof.
  pose proof (readRequestHeader_freeReq (cn_server cn) (cn_codec cn)) as Hfree.
  split; [|split].
  - intros e Hfail.
    destruct (readRequest_header_fails (cn_server cn) (cn_codec cn) (cn_nextAddr cn) e Hfail)
      as (r & err & Hrd & Hhdr & Herr & Hne & Hreads).
    destruct (readRequestHeader_fails (cn_server cn) (cn_codec cn) e Hfail)
      as (_ & Hkeep & _).
    unfold serveStep. rewrite Hrd, Herr, Hhdr, Hkeep. simpl.
    destruct err; try congruence; simpl; exact Hfree.
  - intros rq Hhead Hcs.
    destruct (readRequestHeader_reads (cn_server cn) (cn_codec cn) rq Hhead)
      as (Hreq & Hkeep & Hcodec & Herr & _).
    specialize (Herr Hcs).
    unfold serveStep, readRequest. rewrite Herr, Hkeep. simpl.
    destruct (ReadRequestBody _) as [codec' b]. simpl.
    rewrite Hreq. simpl. exact Hfree.
  - intros rq r err Hhead Hrd Herr Hne.
    destruct (readRequestHeader_reads (cn_server cn) (cn_codec cn) rq Hhead)
      as (Hreq & Hkeep & _).
    pose proof (readRequest_hdr _ _ _ _ Hrd) as Hhdr.
    unfold serveStep. rewrite Hrd, Herr, Hhdr, Hkeep, Hreq. simpl.
    destruct err; try congruence; simpl;
      rewrite sendResponse_freeReq; simpl; rewrite Hfree; reflexivity.
Qed.

Lemma reader_request_headers_witness :
  freeReq (cn_server (fst (serveStep VInvalid 0%nat (freshConn exServer chattyCodec))))
  = [ {| req_ServiceMethod := "NotDotted"; req_Seq := 9 |} ].
Proof.
  eapply (proj2 (proj2 (reader_request_headers VInvalid 0%nat
                          (freshConn exServer chattyCodec)))
            {| req_ServiceMethod := "NotDotted"; req_Seq := 9 |} _
            (ErrNew "rpc: service/method request ill-formed: NotDotted")).
  - reflexivity.
  - reflexivity.
  - reflexivity.
  - discriminate.
Defined.

(** * Further properties of the validator's type test *)

Lemma isExported_ascii upper a rest :
  byte_of a < 0x80 ->
  isExported upper (String a rest) = in_range 0x41 0x5A (byte_of a).
Proof.
  intros Hlt. unfold isExported, utf8_DecodeRuneInString, unicode_IsUpper.
  assert (Hge : 0 <= byte_of a) by (unfold byte_of; lia).
  destruct (byte_of a <? 0x80) eqn:E; [|apply Z.ltb_ge in E; lia].
  unfold in_range.
  destruct (0 <=? byte_of a) eqn:E0; [|apply Z.leb_gt in E0; lia].
  destruct (byte_of a <=? 0xFF) eqn:E1; [|apply Z.leb_gt in E1; lia].
  simpl.
  destruct (0xC0 <=? byte_of a) eqn:E2; [apply Z.leb_le in E2; lia|].
  destruct (0xD8 <=? byte_of a) eqn:E3; [apply Z.leb_le in E3; lia|].
  simpl. rewrite !orb_false_r. reflexivity.
Qed.

(** X20: the test "exported or builtin" looks through any number of
    pointers at the type finally pointed to. A type without package path
    passes whatever its name (predeclared types, and unnamed types such as
    slices and maps of anything); a type whose name starts with an ASCII byte
    passes exactly if that byte is a capital letter or the package path is
    empty, whatever the Unicode tables say. *)
Theorem exportedOrBuiltin_by_base (upper : Z -> bool) (t : type) :
  isExportedOrBuiltinType upper t = isExportedOrBuiltinType upper (stripPtr t) /\
  (PkgPath (stripPtr t) = "" -> isExportedOrBuiltinType upper t = true) /\
  (forall a rest, Name (stripPtr t) = String a rest -> byte_of a < 0x80 ->
     isExportedOrBuiltinType upper t =
       in_range 0x41 0x5A (byte_of a) || String.eqb (PkgPath (stripPtr t)) "").
Proof.
  assert (Hidem : stripPtr (stripPtr t) = stripPtr t).
  { induction t as [k n p|n p e IH]; simpl; [reflexivity|exact IH]. }
  unfold isExportedOrBuiltinType. rewrite Hidem.
  split; [reflexivity|]. split.
  - intros ->. simpl. apply orb_true_r.
  - intros a rest -> Hlt. rewrite isExported_ascii by exact Hlt. reflexivity.
Qed.

Lemma exportedOrBuiltin_by_base_witness :
  isExportedOrBuiltinType noneAboveLatin1
    (PtrTo (PtrTo (TBase KStruct "args" "main"))) =
  in_range 0x41 0x5A (byte_of "a"%char) || String.eqb "main" "".
Proof.
  apply (proj2 (proj2 (exportedOrBuiltin_by_base noneAboveLatin1
                         (PtrTo (PtrTo (TBase KStruct "args" "main")))))
           "a"%char "rgs" eq_refl).
  reflexivity.
Defined.

(** * Further properties of registration and of the context *)

(** X21: [RegisterName] waives the test on the name and nothing else. For a
    receiver with at least one valid method and a non-empty name that is not
    exported and not yet registered, [register] without the name fails and
    leaves the server as it is, while [RegisterName] with that same name
    installs the service. *)
Theorem registerName_waives_export (upper : Z -> bool) (server : Server)
    (rcvr : Receiver) :
  let sname := Name (indirect (rcvr_typ rcvr)) in
  sname <> "" ->
  isExported upper sname = false ->
  serviceMap server !! sname = None ->
  ~ noMethods upper rcvr ->
  (exists msg, Register upper server rcvr = (server, RegErr msg)) /\
  RegisterName upper server sname rcvr
    = (installService server (newService upper rcvr sname), RegOk).
Proof.
  simpl. intros Hne Hexp Hfree Hsome.
  unfold Register, RegisterName, register.
  apply String.eqb_neq in Hne. rewrite Hne, Hexp, Hfree. simpl.
  split; [eauto|].
  destruct (decide (size (installMethods upper (rcvr_methods rcvr)) = 0%nat))
    as [Hz|Hnz]; [|reflexivity].
  exfalso. apply Hsome. apply size_installMethods. exact Hz.
Qed.

Lemma registerName_waives_export_witness :
  (exists msg, Register noneAboveLatin1 NewServer exLower = (NewServer, RegErr msg)) /\
  RegisterName noneAboveLatin1 NewServer "arith" exLower
    = (installService NewServer (newService noneAboveLatin1 exLower "arith"), RegOk).
Proof.
  apply (registerName_waives_export noneAboveLatin1 NewServer exLower).
  - discriminate.
  - reflexivity.
  - reflexivity.
  - intros Hno. inversion Hno as [|m ms Hm _]. discriminate Hm.
Defined.

(** X22: on a connection served with a context value, every executor
    carries [reflect.ValueOf] of that very value, of the type it was given
    with, and nothing is allocated for it, whatever the server's context
    type is. *)
Theorem given_context_is_passed (server : Server) (codec : Codec)
    (t : type) (d : payload) (nextAddr : nat) (nextChan : chan)
    (cn : conn) (ctl : control) (s : service) (c : call) :
  ServeCodecWithContext server codec (Some (t, d)) nextAddr nextChan = Some (cn, ctl) ->
  List.In (DGo (TCall s c)) (cn_events cn) ->
  context c = VOf t d /\ typeOf (context c) = Some t /\
  snd (contextValue server (Some (t, d)) nextAddr) = nextAddr.
Proof.
  unfold ServeCodecWithContext, openConn, contextValue. intros Hserve Hin.
  apply serveLoop_callsCarry in Hserve; [|intros s0 c0 []].
  destruct (Hserve s c Hin) as [Hctx _].
  rewrite Hctx. repeat split.
Qed.

Lemma given_context_is_passed_witness :
  exists (s : service) (c : call),
    List.In (DGo (TCall s c))
      (match ServeCodecWithContext exServer chattyCodec (Some (tInt, "7")) 0%nat 0%nat with
       | Some (cn, _) => cn_events cn
       | None => []
       end) /\
    context c = VOf tInt "7" /\ typeOf (context c) = Some tInt /\
    snd (contextValue exServer (Some (tInt, "7")) 0%nat) = 0%nat.
Proof.
  eexists _, _. split.
  - vm_compute. do 6 right. left. reflexivity.
  - eapply (given_context_is_passed exServer chattyCodec tInt "7" 0%nat 0%nat).
    + vm_compute. reflexivity.
    + simpl. do 6 right. left. reflexivity.
Defined.

(** * What the reader itself writes *)

Lemma onlyErrorResponses_app evs1 evs2 :
  onlyErrorResponses evs1 -> onlyErrorResponses evs2 ->
  onlyErrorResponses (evs1 ++ evs2).
Proof.
  intros H1 H2 f werr Hin. apply in_app_or in Hin as [Hin|Hin]; eauto.
Qed.

Lemma sendResponse_placeholder server rq codec errmsg last :
  f_body (s_frame (sendResponse server rq invalidRequest codec errmsg last))
  = invalidRequest.
Proof.
  destruct (sendResponse_header server rq invalidRequest codec errmsg last)
    as (_ & _ & _ & _ & Hb).
  rewrite Hb. destruct (String.eqb errmsg ""); reflexivity.
Qed.

Lemma serveStep_onlyErrorResponses contextVal eofChan cn cn' ctl :
  onlyErrorResponses (cn_events cn) ->
  serveStep contextVal eofChan cn = (cn', ctl) ->
  onlyErrorResponses (cn_events cn').
Proof.
  intros Hinv. unfold serveStep.
  destruct (readRequest _ _ _) as [r|]; [|intros [= <- _]; exact Hinv].
  assert (Hcn1 : onlyErrorResponses (cn_events cn ++ map DReadBody (r_bodyReads r))).
  { apply onlyErrorResponses_app; [exact Hinv|].
    intros f werr Hin. apply in_map_iff in Hin as (x & [=] & _). }
  assert (Hsend : forall server rq codec errmsg,
            onlyErrorResponses
              [DWrite (s_frame (sendResponse server rq invalidRequest codec errmsg true))
                      (s_werr (sendResponse server rq invalidRequest codec errmsg true))]).
  { intros server rq codec errmsg f werr [[= <- _]|[]]. split.
    - apply (sendResponse_header server rq invalidRequest codec errmsg true).
    - apply sendResponse_placeholder. }
  destruct (r_err r) as [err|].
  - destruct err;
      try (destruct (negb (h_keepReading (r_hdr r))); [intros [= <- _]; exact Hcn1|]);
      destruct (h_req (r_hdr r)) as [rq|]; intros [= <- _]; simpl; try exact Hcn1;
      (apply onlyErrorResponses_app; [exact Hcn1|]);
      first [apply Hsend|intros f werr [[=]|[]]].
  - destruct (h_req (r_hdr r)) as [rq|]; [|intros [= <- _]; exact Hcn1].
    destruct (h_service (r_hdr r)) as [sv|]; [|intros [= <- _]; exact Hcn1].
    destruct (h_mtype (r_hdr r)) as [mt|]; [|intros [= <- _]; exact Hcn1].
    intros [= <- _]. simpl.
    apply onlyErrorResponses_app; [exact Hcn1|].
    intros f werr [[=]|[[=]|[]]].
Qed.

Lemma serveLoop_onlyErrorResponses fuel contextVal eofChan cn cn' ctl :
  onlyErrorResponses (cn_events cn) ->
  serveLoop fuel contextVal eofChan cn = Some (cn', ctl) ->
  onlyErrorResponses (cn_events cn').
Proof.
  revert cn. induction fuel as [|fuel IH]; intros cn Hinv; simpl; [discriminate|].
  destruct (serveStep contextVal eofChan cn) as [cn1 ctl1] eqn:Hstep.
  pose proof (serveStep_onlyErrorResponses _ _ _ _ _ Hinv Hstep) as Hinv1.
  destruct ctl1.
  - apply IH. exact Hinv1.
  - intros [= <- _]. simpl. apply onlyErrorResponses_app; [exact Hinv1|].
    intros f werr [[=]|[[=]|[]]].
  - intros [= <- _]. exact Hinv1.
Qed.

(** X23: the reader never writes a reply or a streamed value itself. Every
    response it hands to the codec during a connection, on any registry, is a
    terminal frame with the placeholder as its body; replies and stream
    frames come from the executors only. *)
Theorem reader_writes_only_errors (server : Server) (codec : Codec)
    (ctx : option (type * payload)) (nextAddr : nat) (nextChan : chan)
    (cn : conn) (ctl : control) (f : frame) (werr : option string) :
  ServeCodecWithContext server codec ctx nextAddr nextChan = Some (cn, ctl) ->
  List.In (DWrite f werr) (cn_events cn) ->
  f_last f = true /\ f_body f = invalidRequest.
Proof.
  unfold ServeCodecWithContext, openConn. intros Hserve.
  destruct (contextValue server ctx nextAddr) as [contextVal a1].
  apply serveLoop_onlyErrorResponses in Hserve; [|intros f0 w0 []].
  apply Hserve.
Qed.

Lemma reader_writes_only_errors_witness :
  exists cn f,
    ServeCodec exServer chattyCodec 0%nat 0%nat = Some (cn, Break) /\
    List.In (DWrite f None) (cn_events cn) /\
    Seq (f_resp f) = 9 /\
    f_last f = true /\ f_body f = invalidRequest.
Proof.
  eexists _, {| f_resp := {| ServiceMethod := "NotDotted"; Seq := 9;
                             Error := "rpc: service/method request ill-formed: NotDotted" |};
                f_body := BInvalidRequest; f_last := true |}.
  split; [vm_compute; reflexivity|].
  split; [simpl; right; left; reflexivity|].
  split; [reflexivity|].
  eapply (reader_writes_only_errors exServer chattyCodec None 0%nat 0%nat _ _ _ None).
  - vm_compute. reflexivity.
  - simpl. right. left. reflexivity.
Defined.
